(** * The scheduling kernel of meadowdata, embedded in Rocq

    Sources embedded here:
    - [src/meadowflow/jobs.py]: job payloads, runner functions, override
      application, the [Run] action, runner selection, the job-state event
      filter and state predicate, and the scope wrapper;
    - [src/nextbeat/scheduler.py]: the two-phase loader of the scheduler
      ([add_job], [create_job_subscriptions]) and the subscribers it binds.

    Python objects that the code mutates in place and shares (the
    environment-variable dict of a deployed function, [Job] objects returned
    by a scope function, the local variables a nested function closes over)
    live in explicit stores and are referred to by location. Exceptions are
    values of [exn]; a computation that can raise returns a [result]. *)

From Stdlib Require Import ZArith.
From stdpp Require Import base option list strings gmap fin_maps.

Local Open Scope Z_scope.

(** ** Exceptions *)

(** Every [raise] of the two modules is a [ValueError]; the constructor
    argument records which one. [AttributeError] is what Python raises for an
    attribute read on an object that lacks it ([None.payload],
    [payload.state] on a payload that is no [JobPayload]), [NameError] what
    it raises for a read of an unbound variable. [RunnerError] is an exception
    coming out of a job runner's own [run]. *)
Inductive value_error :=
  | DuplicateJobName
  | BadJobFunction
  | OverrideNotApplicable
  | NoCompatibleRunner
  | ScopeArityMismatch
  | ScopeKeyCollision.

Inductive exn :=
  | ValueError (site : value_error)
  | AttributeError
  | NameError
  | RunnerError.

Inductive result (A : Type) :=
  | Ok (a : A)
  | Raise (e : exn).
Arguments Ok {A} a.
Arguments Raise {A} e.

(** Computations over a mutable state [S] that may raise. The state that an
    exception leaves behind is kept: Python does not roll anything back. *)
Definition M (S A : Type) : Type := S → result A * S.

Definition ret {S A} (a : A) : M S A := λ s, (Ok a, s).
Definition raise {S A} (e : exn) : M S A := λ s, (Raise e, s).
Definition bind {S A B} (c : M S A) (k : A → M S B) : M S B := λ s,
  match c s with
  | (Ok a, s') => k a s'
  | (Raise e, s') => (Raise e, s')
  end.
Definition lift {S A} (r : result A) : M S A := λ s, (r, s).
Definition get {S} : M S S := λ s, (Ok s, s).

Declare Scope action_scope.
Delimit Scope action_scope with act.
Notation "'do' x <- c ; k" := (bind c (λ x, k))
  (at level 10, x name, c at level 100, k at level 200,
   format "'[v' 'do'  x  <-  c ; '/' k ']'") : action_scope.

(** ** Payloads and events *)

Inductive JobState :=
  | WAITING
  | RUN_REQUESTED
  | RUNNING
  | SUCCEEDED
  | CANCELLED
  | FAILED.

#[global] Instance JobState_eq_dec : EqDecision JobState.
Proof. solve_decision. Defined.

Inductive FailureType :=
  | PYTHON_EXCEPTION
  | NON_ZERO_RETURN_CODE
  | RUN_REQUEST_FAILED.

(** [JobPayload]. The fields [result_value], [effects] and
    [raised_exception] hold arbitrary Python objects that no function
    embedded here reads; they are left out. *)
Record JobPayload := mkJobPayload {
  request_id : option string;
  state : JobState;
  failure_type : option FailureType;
  pid : option Z;
  return_code : option Z
}.

(** [JobPayload(request_id, state)] with every other field at its default. *)
Definition JobPayload2 (rid : option string) (st : JobState) : JobPayload :=
  mkJobPayload rid st None None None.

(** A topic name is a frozen mapping from string keys to primitive values;
    scope values are a mapping of the same shape. *)
Abbreviation TopicName := (gmap string string).
Abbreviation ScopeValues := (gmap string string).

Inductive Payload :=
  | PJob (p : JobPayload)
  | PScope (s : ScopeValues)
  | POther.

Record Event (Topic : Type) := mkEvent {
  topic_name : Topic;
  timestamp : Z;
  payload : Payload
}.
Arguments mkEvent {Topic}.
Arguments topic_name {Topic}.
Arguments timestamp {Topic}.
Arguments payload {Topic}.

(** [event.payload.state]: only a [JobPayload] has the attribute. *)
Definition payload_state (p : Payload) : result JobState :=
  match p with
  | PJob jp => Ok (state jp)
  | _ => Raise AttributeError
  end.

(** [event.payload.request_id]. *)
Definition payload_request_id (p : Payload) : result (option string) :=
  match p with
  | PJob jp => Ok (request_id jp)
  | _ => Raise AttributeError
  end.

(** ** The event log *)

Section event_log.
Context {Topic : Type} `{!EqDecision Topic} {Sub : Type}.

(** Modelled from the spec: the module [event_log] ([EventLog], its
    [append_event], [last_event], [events_and_state], [curr_timestamp] and
    [subscribe]) is not among the sources. The log is the list of events
    in append order, together with the registered subscribers, each with
    the topics it was subscribed on. *)
Record EventLog := mkEventLog {
  log_events : list (Event Topic);
  log_subscribers : list (list Topic * Sub)
}.

(** Modelled from the spec: the timestamp of the most recent append, or 0
    if there is none. *)
Definition curr_timestamp (log : EventLog) : Z :=
  match last (log_events log) with
  | Some e => timestamp e
  | None => 0
  end.

(** Modelled from the spec: [append] assigns the next timestamp and
    records the event; the subscribers are untouched. *)
Definition append_event (topic : Topic) (p : Payload) (log : EventLog)
    : Z * EventLog :=
  let t := curr_timestamp log + 1 in
  (t, mkEventLog (log_events log ++ [mkEvent topic t p]) (log_subscribers log)).

Definition on_topic_until (topic : Topic) (t : Z) (e : Event Topic) : Prop :=
  topic_name e = topic ∧ timestamp e ≤ t.

#[global] Instance on_topic_until_dec topic t e :
  Decision (on_topic_until topic t e).
Proof. unfold on_topic_until. apply _. Defined.

(** Modelled from the spec: the most recent event on [topic] whose
    timestamp is at most [t], [None] if absent. Events that share a
    timestamp are ordered by append order. *)
Definition last_event (log : EventLog) (topic : Topic) (t : Z)
    : option (Event Topic) :=
  last (filter (on_topic_until topic t) (log_events log)).

Definition on_topic_within (topic : Topic) (low high : Z) (e : Event Topic)
    : Prop :=
  topic_name e = topic ∧ low ≤ timestamp e ∧ timestamp e ≤ high.

#[global] Instance on_topic_within_dec topic low high e :
  Decision (on_topic_within topic low high e).
Proof. unfold on_topic_within. apply _. Defined.

(** Modelled from the spec: the events observed on [topic] in the
    inclusive window [(low, high)], in append order. *)
Definition events_in_window (log : EventLog) (topic : Topic) (low high : Z)
    : list (Event Topic) :=
  filter (on_topic_within topic low high) (log_events log).

(** Modelled from the spec: the event that establishes the state as of
    [low], followed by every later event up to [high]. *)
Definition events_and_state (log : EventLog) (topic : Topic) (low high : Z)
    : list (Event Topic) :=
  option_list (last_event log topic low)
    ++ events_in_window log topic (low + 1) high.

(** Modelled from the spec: [subscribe(topics, handler)]. *)
Definition subscribe (topics : list Topic) (handler : Sub) (log : EventLog)
    : EventLog :=
  mkEventLog (log_events log) (log_subscribers log ++ [(topics, handler)]).
End event_log.
Arguments EventLog : clear implicits.

(** ** Runner functions *)

(** The store of environment-variable dicts. A deployed command or function
    holds a reference to its dict; [dataclasses.replace] copies the
    reference, so the copies share the dict. *)
Abbreviation loc := nat.
Abbreviation env_store := (gmap loc (gmap string string)).

(** Arguments and keyword arguments are replaced as a whole and never
    updated in place, so they are held by value; argument values are opaque
    and written as strings. *)
Record LocalFunction := mkLocalFunction {
  function_pointer : string;
  function_args : list string;
  function_kwargs : gmap string string
}.

(** Modelled from the spec: the module [meadowrun.deployed_function] is not
    among the sources. Of the inner function descriptor of a deployed
    function, and of the two deployed variants, the fields are those the
    override rules read and replace. *)
Record MeadowRunFunction := mkMeadowRunFunction {
  mr_function_name : string;
  mr_function_args : list string;
  mr_function_kwargs : gmap string string
}.

Record MeadowRunDeployedCommand := mkMeadowRunDeployedCommand {
  command_line : list string;
  context_variables : option (gmap string string);
  command_environment_variables : option loc
}.

Record MeadowRunDeployedFunction := mkMeadowRunDeployedFunction {
  meadowrun_function : MeadowRunFunction;
  function_environment_variables : option loc
}.

Inductive JobRunnerFunction :=
  | JRLocal (f : LocalFunction)
  | JRCommand (c : MeadowRunDeployedCommand)
  | JRFunction (f : MeadowRunDeployedFunction).

(** ** Overrides *)

Record JobRunOverrides := mkJobRunOverrides {
  ro_function_args : option (list string);
  ro_function_kwargs : option (gmap string string);
  ro_context_variables : option (gmap string string);
  meadowdb_userspace : option string
}.

(** Python truth value of an optional sequence, dict or string: [None] and
    the empty container are false. *)
Definition truthy_list {A} (o : option (list A)) : bool :=
  match o with Some (_ :: _) => true | _ => false end.

Definition truthy_dict (o : option (gmap string string)) : bool :=
  match o with Some d => bool_decide (d ≠ ∅) | None => false end.

Definition truthy_str (o : option string) : bool :=
  match o with Some s => bool_decide (s ≠ "") | None => false end.

(** [dataclasses.replace] of [f] with the entries of [to_replace], which
    has the key [function_args] (resp. [function_kwargs]) exactly when the
    override is truthy. *)
Definition replace_local (ro : JobRunOverrides) (f : LocalFunction)
    : LocalFunction :=
  mkLocalFunction (function_pointer f)
    (if truthy_list (ro_function_args ro)
     then default [] (ro_function_args ro) else function_args f)
    (if truthy_dict (ro_function_kwargs ro)
     then default ∅ (ro_function_kwargs ro) else function_kwargs f).

Definition replace_meadowrun (ro : JobRunOverrides) (f : MeadowRunFunction)
    : MeadowRunFunction :=
  mkMeadowRunFunction (mr_function_name f)
    (if truthy_list (ro_function_args ro)
     then default [] (ro_function_args ro) else mr_function_args f)
    (if truthy_dict (ro_function_kwargs ro)
     then default ∅ (ro_function_kwargs ro) else mr_function_kwargs f).

Definition MEADOWDB_DEFAULT_USERSPACE : string := "MEADOWDB_DEFAULT_USERSPACE".

(** [job_runner_function.environment_variables] of a remote variant. *)
Definition environment_variables (jrf : JobRunnerFunction) : option loc :=
  match jrf with
  | JRLocal _ => None
  | JRCommand c => command_environment_variables c
  | JRFunction f => function_environment_variables f
  end.

(** [dataclasses.replace(jrf, environment_variables=l)] on a remote
    variant. *)
Definition replace_environment_variables (jrf : JobRunnerFunction) (l : loc)
    : JobRunnerFunction :=
  match jrf with
  | JRLocal f => JRLocal f
  | JRCommand c =>
      JRCommand (mkMeadowRunDeployedCommand (command_line c)
                   (context_variables c) (Some l))
  | JRFunction f =>
      JRFunction (mkMeadowRunDeployedFunction (meadowrun_function f) (Some l))
  end.

(** The environment-variable map an observer reads through the field: the
    dict behind the reference, or nothing when the field is [None]. *)
Definition env_of (σ : env_store) (o : option loc) : gmap string string :=
  match o with Some l => σ !!! l | None => ∅ end.

Definition alloc_dict (d : gmap string string) : M env_store loc := λ σ,
  let l := fresh (dom σ) in (Ok l, <[l := d]> σ).

(** [d.update] with the one entry of [new_dict], on the dict at [l]. *)
Definition update_dict (l : loc) (k v : string) : M env_store unit := λ σ,
  (Ok tt, <[l := <[k := v]> (σ !!! l)]> σ).

(** The body of the userspace rule on a remote variant: a dict that is
    there and not empty is updated in place, through the reference; otherwise
    the function is replaced by a copy that refers to a new dict. *)
Definition set_userspace (u : string) (jrf : JobRunnerFunction)
    : M env_store JobRunnerFunction :=
  (do σ <- get;
   let new_dict : gmap string string := {[ MEADOWDB_DEFAULT_USERSPACE := u ]} in
   match environment_variables jrf with
   | Some l =>
       if bool_decide (σ !!! l ≠ ∅)
       then
         do _ <- update_dict l MEADOWDB_DEFAULT_USERSPACE u;
         ret jrf
       else
         do l' <- alloc_dict new_dict;
         ret (replace_environment_variables jrf l')
   | None =>
       do l' <- alloc_dict new_dict;
       ret (replace_environment_variables jrf l')
   end)%act.

Definition _apply_job_run_overrides (run_overrides : option JobRunOverrides)
    (job_runner_function : JobRunnerFunction) : M env_store JobRunnerFunction :=
  (match run_overrides with
   | None => ret job_runner_function
   | Some ro =>
       do jrf1 <-
         (if truthy_list (ro_function_args ro)
             || truthy_dict (ro_function_kwargs ro)
          then
            match job_runner_function with
            | JRLocal f => ret (JRLocal (replace_local ro f))
            | JRFunction f =>
                ret (JRFunction
                       (mkMeadowRunDeployedFunction
                          (replace_meadowrun ro (meadowrun_function f))
                          (function_environment_variables f)))
            | JRCommand _ => raise (ValueError OverrideNotApplicable)
            end
          else ret job_runner_function);
       do jrf2 <-
         (if truthy_dict (ro_context_variables ro)
          then
            match jrf1 with
            | JRCommand c =>
                ret (JRCommand
                       (mkMeadowRunDeployedCommand (command_line c)
                          (ro_context_variables ro)
                          (command_environment_variables c)))
            | _ => raise (ValueError OverrideNotApplicable)
            end
          else ret jrf1);
       if truthy_str (meadowdb_userspace ro)
       then
         match jrf2 with
         | JRCommand _ | JRFunction _ =>
             set_userspace (default "" (meadowdb_userspace ro)) jrf2
         | JRLocal _ => raise (ValueError OverrideNotApplicable)
         end
       else ret jrf2
   end)%act.

(** ** Jobs and job runners *)

(** A job runner, through the three methods of the abstract class. [run]
    is given the log it appends to (the runner holds the log's append
    function); the boolean it returns tells whether the call returned, as
    opposed to raising an exception of its own. [poll_jobs] is called by the
    polling loop only. *)
Record JobRunner := mkJobRunner {
  runner_id : nat;
  run : TopicName → string → JobRunnerFunction
        → EventLog TopicName unit → bool * EventLog TopicName unit;
  can_run_function : JobRunnerFunction → bool
}.

Definition await_run (runner : JobRunner) (job_name : TopicName)
    (run_request_id : string) (job_runner_function : JobRunnerFunction)
    : M (EventLog TopicName unit) unit := λ log,
  let '(returned, log') :=
    run runner job_name run_request_id job_runner_function log in
  (if returned then Ok tt else Raise RunnerError, log').

Record VersionedJobRunnerFunction := mkVersioned {
  get_job_runner_function : JobRunnerFunction
}.

Record JobRunnerPredicate := mkJobRunnerPredicate {
  predicate_apply : JobRunner → bool
}.

(** [job_function] is annotated as a runner function or a versioned one;
    [JFOther] is any other object, which [Run.execute] rejects. *)
Inductive JobFunction :=
  | JFRunner (f : JobRunnerFunction)
  | JFVersioned (v : VersionedJobRunnerFunction)
  | JFOther.

(** [Job]. The trigger-actions of a job (module [topic], not among the
    sources) are read by no function of [jobs.py]; they are kept as opaque
    identifiers. *)
Record Job := mkJob {
  name : TopicName;
  job_function : JobFunction;
  trigger_actions : list nat;
  job_runner_predicate : option JobRunnerPredicate;
  scope : ScopeValues;
  all_subscribed_topics : option (list TopicName)
}.

(** [random.choice(seq)] is [seq[randbelow(len(seq))]]; the draw is taken
    from the entropy [rnd] handed in by the caller. *)
Definition random_choice {A} (rnd : nat) (seq : list A) : option A :=
  seq !! (rnd `mod` length seq)%nat.

Definition compatible_job_runners (job : Job)
    (job_runner_function : JobRunnerFunction) (job_runners : list JobRunner)
    : list JobRunner :=
  let compatible :=
    match job_runner_predicate job with
    | None => job_runners
    | Some p => filter (λ jr, predicate_apply p jr = true) job_runners
    end in
  filter (λ jr, can_run_function jr job_runner_function = true) compatible.

(** The last branch is not reached: a draw from a non-empty list gives an
    element. *)
Definition choose_job_runner (job : Job)
    (job_runner_function : JobRunnerFunction) (job_runners : list JobRunner)
    (rnd : nat) : result JobRunner :=
  let compatible := compatible_job_runners job job_runner_function job_runners in
  if bool_decide (length compatible = 0%nat)
  then Raise (ValueError NoCompatibleRunner)
  else match random_choice rnd compatible with
       | Some jr => Ok jr
       | None => Raise (ValueError NoCompatibleRunner)
       end.

(** ** The [Run] action *)

(** What [Run.execute] can reach and change: the event log and the store
    of environment-variable dicts. The call assigns no attribute of the job,
    which is therefore passed by value. *)
Record World := mkWorld {
  event_log : EventLog TopicName unit;
  env_dicts : env_store
}.

Definition on_env_dicts {A} (c : M env_store A) : M World A := λ w,
  let '(r, σ) := c (env_dicts w) in (r, mkWorld (event_log w) σ).

Definition on_event_log {A} (c : M (EventLog TopicName unit) A) : M World A :=
  λ w, let '(r, log) := c (event_log w) in (r, mkWorld log (env_dicts w)).

Module Run.
Section execute.
(** [events_arg.replace_latest_events] is not among the sources; it
    substitutes latest-event arguments and returns the runner function to
    run. *)
Variable replace_latest_events :
  JobRunnerFunction → Job → EventLog TopicName unit → Z → JobRunnerFunction.

(** [uuid4] is the string of the UUID the call would draw, [rnd] the
    entropy of [random.choice]. *)
Definition start_run (job : Job) (run_overrides : option JobRunOverrides)
    (available_job_runners : list JobRunner) (timestamp : Z)
    (uuid4 : string) (rnd : nat) : M World (option string) :=
  (let run_request_id := uuid4 in
   do job_runner_function <-
     match job_function job with
     | JFVersioned v => ret (get_job_runner_function v)
     | JFRunner f => ret f
     | JFOther => raise (ValueError BadJobFunction)
     end;
   do job_runner_function <-
     on_env_dicts (_apply_job_run_overrides run_overrides job_runner_function);
   do w <- get;
   let job_runner_function :=
     replace_latest_events job_runner_function job (event_log w) timestamp in
   do runner <-
     lift (choose_job_runner job job_runner_function
             available_job_runners rnd);
   do _ <- on_event_log (await_run runner (name job) run_request_id
                           job_runner_function);
   ret (Some run_request_id))%act.

Definition execute (job : Job) (run_overrides : option JobRunOverrides)
    (available_job_runners : list JobRunner) (timestamp : Z)
    (uuid4 : string) (rnd : nat) : M World (option string) :=
  (do w <- get;
   match last_event (event_log w) (name job) timestamp with
   | Some ev =>
       do st <- lift (payload_state (payload ev));
       if bool_decide (st ∈ [RUN_REQUESTED; RUNNING])
       then lift (payload_request_id (payload ev))
       else start_run job run_overrides available_job_runners timestamp
              uuid4 rnd
   | None =>
       start_run job run_overrides available_job_runners timestamp
         uuid4 rnd
   end)%act.
End execute.
End Run.

(** ** Event filters and state predicates *)

Module AnyJobStateEventFilter.
Record t := mk {
  job_names : list TopicName;
  on_states : list JobState
}.

Definition topic_names_to_subscribe (self : t) : list TopicName :=
  job_names self.

Definition apply (self : t) (event : Event TopicName) : result bool :=
  match payload_state (payload event) with
  | Ok st => Ok (bool_decide (st ∈ on_states self))
  | Raise e => Raise e
  end.

(** The filter applied to each event of a list, in order. *)
Fixpoint apply_each (self : t) (events : list (Event TopicName))
    : result (list bool) :=
  match events with
  | [] => Ok []
  | event :: rest =>
      match apply self event, apply_each self rest with
      | Ok b, Ok bs => Ok (b :: bs)
      | Raise e, _ => Raise e
      | _, Raise e => Raise e
      end
  end.

(** The events observed in the window on the topics of the wake set. *)
Definition observed {Sub} (self : t) (log : EventLog TopicName Sub)
    (low high : Z) : list (Event TopicName) :=
  concat (map (λ topic, events_in_window log topic low high)
              (topic_names_to_subscribe self)).

(** Modelled from the spec: the code that materializes a trigger over an
    event filter (modules [topic] and [scheduler] of [meadowflow]) is not
    among the sources. For each topic in the wake set the events observed
    in the window are fetched and the filter is applied; the trigger is
    active iff at least one matching event appears in the window. *)
Definition is_active {Sub} (self : t) (log : EventLog TopicName Sub)
    (low high : Z) : result bool :=
  match apply_each self (observed self log low high) with
  | Ok matches => Ok (existsb id matches)
  | Raise e => Raise e
  end.
End AnyJobStateEventFilter.

Module AllJobStatePredicate.
Section apply.
(** The sentinel of module [topic_names], which is not among the
    sources: the topic name that stands for the job under evaluation. *)
Variable CURRENT_JOB : TopicName.

Record t := mk {
  job_names : list TopicName;
  on_states : list JobState
}.

Definition topic_names_to_query (self : t) : list TopicName :=
  job_names self.

(** The name a [job_name] of the predicate stands for. *)
Definition substitute (current_job_name job_name : TopicName) : TopicName :=
  if decide (job_name = CURRENT_JOB) then current_job_name else job_name.

(** The [for] loop of [apply], over the job names still to visit. *)
Fixpoint apply_from {Sub} (self : t) (event_log : EventLog TopicName Sub)
    (high_timestamp : Z) (current_job_name : TopicName)
    (names : list TopicName) : result bool :=
  match names with
  | [] => Ok true
  | job_name :: rest =>
      let job_name := substitute current_job_name job_name in
      match last_event event_log job_name high_timestamp with
      | None => Ok false
      | Some latest_event =>
          match payload_state (payload latest_event) with
          | Raise e => Raise e
          | Ok st =>
              if bool_decide (st ∉ on_states self)
              then Ok false
              else apply_from self event_log high_timestamp
                     current_job_name rest
          end
      end
  end.

Definition apply {Sub} (self : t) (event_log : EventLog TopicName Sub)
    (low_timestamp high_timestamp : Z) (current_job_name : TopicName)
    : result bool :=
  apply_from self event_log high_timestamp current_job_name (job_names self).
End apply.
End AllJobStatePredicate.

(** ** Scope expansion *)

(** The store of [Job] objects: the wrapper assigns [job.scope] and
    [job.name] on the objects the wrapped function returned. *)
Abbreviation job_store := (gmap loc Job).

#[global] Instance Job_inhabited : Inhabited Job :=
  populate (mkJob ∅ JFOther [] None ∅ None).

(** [[e.payload for e in events.values() if isinstance(e.payload,
    ScopeValues)]]: reading [payload] off a value that is [None] raises. *)
Fixpoint scope_payloads (values : list (option (Event TopicName)))
    : result (list ScopeValues) :=
  match values with
  | [] => Ok []
  | None :: _ => Raise AttributeError
  | Some e :: rest =>
      match scope_payloads rest with
      | Raise x => Raise x
      | Ok scopes =>
          match payload e with
          | PScope s => Ok (s :: scopes)
          | _ => Ok scopes
          end
      end
  end.

(** The inner loop over [scope.items()], on the mutable copy [name]. *)
Fixpoint extend_name (items : list (string * string))
    (name : gmap string string) : result (gmap string string) :=
  match items with
  | [] => Ok name
  | (key, value) :: rest =>
      if bool_decide (is_Some (name !! key))
      then Raise (ValueError ScopeKeyCollision)
      else extend_name rest (<[key := value]> name)
  end.

(** One round of the outer loop: the job at [l] gets its new name and
    scope, unless the inner loop raised. *)
Definition adjust_job (scope : ScopeValues) (l : loc) : M job_store unit :=
  λ h,
    let job := h !!! l in
    match extend_name (map_to_list scope) (name job) with
    | Raise e => (Raise e, h)
    | Ok name' =>
        (Ok tt,
         <[l := mkJob name' (job_function job) (trigger_actions job)
                  (job_runner_predicate job) scope
                  (all_subscribed_topics job)]> h)
    end.

Fixpoint adjust_jobs (scope : ScopeValues) (jobs_to_add : list loc)
    : M job_store unit :=
  match jobs_to_add with
  | [] => ret tt
  | l :: rest => (do _ <- adjust_job scope l; adjust_jobs scope rest)%act
  end.

(** [add_scope_jobs_decorator(func)] is the wrapper. [func] is the wrapped
    function with its extra arguments already supplied; it returns
    references to the jobs it made. *)
Definition add_scope_jobs_decorator (func : ScopeValues → M job_store (list loc))
    (events : gmap TopicName (option (Event TopicName)))
    : M job_store (list loc) :=
  (do scopes <- lift (scope_payloads (map_to_list events).*2);
   match scopes with
   | [scope] =>
       do jobs_to_add <- func scope;
       do _ <- adjust_jobs scope jobs_to_add;
       ret jobs_to_add
   | _ => raise (ValueError ScopeArityMismatch)
   end)%act.

(** ** The scheduler ([nextbeat]) *)

Module Scheduler.
Section scheduler.
(** Triggers and actions (module [topic] of [nextbeat]) are not among
    the sources; they enter through the methods the scheduler calls. *)
Context {Trigger Action : Type}.

(** A job of [nextbeat]: its name is a string. *)
Record Job := mkJob {
  name : string;
  trigger_actions : list (Trigger * Action)
}.

(** The local variables of one call of [create_job_subscriptions] that
    the nested function [subscriber] refers to. Python keeps one cell per
    variable for the whole call; every [subscriber] made during the call
    holds a reference to these cells, not a copy of their contents. *)
Record Frame := mkFrame {
  cell_job : option Job;
  cell_trigger : option Trigger;
  cell_action : option Action
}.

(** A [subscriber] function object: the frame its free variables live
    in. *)
Record Subscriber := mkSubscriber {
  subscriber_frame : nat
}.

Record t := mk {
  _event_log : EventLog string Subscriber;
  _jobs : gmap string Job;
  _create_job_subscriptions_queue : list Job;
  frames : list Frame
}.

Variable topic_names_to_subscribe : Trigger → list string.
Variable is_active : Trigger → gmap string (list (Event string)) → bool.
Variable action_execute :
  Action → Job → Z → M (EventLog string Subscriber) unit.

Definition add_job (job : Job) : M t unit := λ self,
  if bool_decide (is_Some (_jobs self !! name job))
  then (Raise (ValueError DuplicateJobName), self)
  else
    (Ok tt,
     mk (append_event (name job) (PJob (JobPayload2 None WAITING))
           (_event_log self)).2
        (<[name job := job]> (_jobs self))
        (_create_job_subscriptions_queue self ++ [job])
        (frames self)).

(** The inner [for] loop, in frame [f]: each round rebinds [trigger] and
    [action], makes a [subscriber] and subscribes it on the topics of the
    round's trigger. *)
Fixpoint bind_trigger_actions (f : nat) (tas : list (Trigger * Action))
    (self : t) : t :=
  match tas with
  | [] => self
  | (trigger, action) :: rest =>
      let frames' :=
        alter (λ fr, mkFrame (cell_job fr) (Some trigger) (Some action))
              f (frames self) in
      let log' :=
        subscribe (topic_names_to_subscribe trigger) (mkSubscriber f)
                  (_event_log self) in
      bind_trigger_actions f rest
        (mk log' (_jobs self) (_create_job_subscriptions_queue self) frames')
  end.

(** The outer [for] loop: each round rebinds [job]. *)
Fixpoint bind_jobs (f : nat) (queue : list Job) (self : t) : t :=
  match queue with
  | [] => self
  | job :: rest =>
      let frames' :=
        alter (λ fr, mkFrame (Some job) (cell_trigger fr) (cell_action fr))
              f (frames self) in
      bind_jobs f rest
        (bind_trigger_actions f (trigger_actions job)
           (mk (_event_log self) (_jobs self)
               (_create_job_subscriptions_queue self) frames'))
  end.

Definition create_job_subscriptions (self : t) : t :=
  let f := length (frames self) in
  let self1 :=
    mk (_event_log self) (_jobs self) (_create_job_subscriptions_queue self)
       (frames self ++ [mkFrame None None None]) in
  let self2 := bind_jobs f (_create_job_subscriptions_queue self) self1 in
  mk (_event_log self2) (_jobs self2) [] (frames self2).

(** What the free variables [job], [trigger] and [action] of a
    subscriber denote when its body runs. *)
Definition subscriber_binding (self : t) (s : Subscriber)
    : option (Job * Trigger * Action) :=
  fr ← frames self !! subscriber_frame s;
  job ← cell_job fr;
  trigger ← cell_trigger fr;
  action ← cell_action fr;
  Some (job, trigger, action).

(** The body of [subscriber], woken with a window. *)
Definition call_subscriber (s : Subscriber) (low_timestamp high_timestamp : Z)
    : M t unit := λ self,
  match subscriber_binding self s with
  | None => (Raise NameError, self)
  | Some (job, trigger, action) =>
      let events : gmap string (list (Event string)) :=
        foldl (λ events name,
                 <[name := events_and_state (_event_log self) name
                              low_timestamp high_timestamp]> events)
              ∅ (topic_names_to_subscribe trigger) in
      if is_active trigger events
      then
        let '(r, log') :=
          action_execute action job high_timestamp (_event_log self) in
        (r, mk log' (_jobs self) (_create_job_subscriptions_queue self)
               (frames self))
      else (Ok tt, self)
  end.

(** The bindings of the jobs waiting in the queue, in loop order. *)
Definition pending_bindings (self : t) : list (Job * Trigger * Action) :=
  flat_map (λ job, map (λ ta, (job, ta.1, ta.2)) (trigger_actions job))
           (_create_job_subscriptions_queue self).

(** The subscriptions a call of [create_job_subscriptions] added. *)
Definition new_subscriptions (before after : t)
    : list (list string * Subscriber) :=
  drop (length (log_subscribers (_event_log before)))
       (log_subscribers (_event_log after)).
End scheduler.
Arguments Job : clear implicits.
Arguments Frame : clear implicits.
Arguments t : clear implicits.
End Scheduler.

(** ** Concrete jobs, logs and runners used to exercise the definitions *)

Module Examples.
Definition topic (base : string) : TopicName := {[ "base" := base ]}.

Definition job_event (base : string) (t : Z) (rid : option string)
    (st : JobState) : Event TopicName :=
  mkEvent (topic base) t (PJob (JobPayload2 rid st)).

(** A runner that accepts every function and appends [RUN_REQUESTED]. *)
Definition eager_runner (id : nat) : JobRunner :=
  mkJobRunner id
    (λ job_name run_request_id _ log,
       (true,
        (append_event job_name
           (PJob (JobPayload2 (Some run_request_id) RUN_REQUESTED)) log).2))
    (λ _, true).

(** A runner that only takes local functions. *)
Definition local_runner (id : nat) : JobRunner :=
  mkJobRunner id
    (λ job_name run_request_id _ log,
       (true,
        (append_event job_name
           (PJob (JobPayload2 (Some run_request_id) RUN_REQUESTED)) log).2))
    (λ f, match f with JRLocal _ => true | _ => false end).

Definition no_latest_events (f : JobRunnerFunction) (_ : Job)
    (_ : EventLog TopicName unit) (_ : Z) : JobRunnerFunction := f.

Definition local_job (base : string) : Job :=
  mkJob (topic base) (JFRunner (JRLocal (mkLocalFunction "f" [] ∅)))
    [] None ∅ None.

(** A deployed command whose environment-variable dict is at location 0. *)
Definition deployed_command : JobRunnerFunction :=
  JRCommand (mkMeadowRunDeployedCommand ["run.sh"] None (Some 0%nat)).

Definition command_job (base : string) : Job :=
  mkJob (topic base) (JFRunner deployed_command) [] None ∅ None.

Definition path_store : env_store := {[ 0%nat := {[ "PATH" := "/bin" ]} ]}.

Definition userspace_override (u : string) : JobRunOverrides :=
  mkJobRunOverrides None None None (Some u).

(** A log in which job [A] was requested under the id [r1]. *)
Definition requested_log : EventLog TopicName unit :=
  mkEventLog [job_event "A" 1 None WAITING;
              job_event "A" 2 (Some "r1") RUN_REQUESTED] [].

(** A log in which job [A] succeeded and was re-armed in one window. *)
Definition rearmed_log : EventLog TopicName unit :=
  mkEventLog [job_event "A" 1 (Some "r1") SUCCEEDED;
              job_event "A" 2 None WAITING] [].

Definition waiting_log : EventLog TopicName unit :=
  mkEventLog [job_event "A" 1 None WAITING] [].

(** A scope instantiated for one date, and the event that announces it. *)
Definition date_scope : ScopeValues := {[ "date" := "2024-01-01" ]}.

Definition scope_topic : TopicName := {[ "scope" := "date" ]}.

Definition scope_event : Event TopicName :=
  mkEvent scope_topic 1 (PScope date_scope).

(** The latest events of two subscribed topics: the scope was
    instantiated, the other topic has no event yet. *)
Definition delivered_with_gap : gmap TopicName (option (Event TopicName)) :=
  {[ scope_topic := Some scope_event; topic "upstream" := None ]}.

Definition delivered : gmap TopicName (option (Event TopicName)) :=
  {[ scope_topic := Some scope_event ]}.

(** A scope function that makes two jobs, the second with a name that
    already has the key [date]. *)
Definition dated_job : Job :=
  mkJob {[ "base" := "j2"; "date" := "today" ]}
    (JFRunner (JRLocal (mkLocalFunction "f" [] ∅))) [] None ∅ None.

Definition make_colliding_jobs (_ : ScopeValues) : M job_store (list loc) :=
  λ h, (Ok [0%nat; 1%nat], <[0%nat := local_job "j1"]> (<[1%nat := dated_job]> h)).
End Examples.

(** ** Notions used to state the properties *)

(** Whether the override rules that come before the userspace rule go
    through on a remote variant: a deployed command takes no
    [function_args] or [function_kwargs], a deployed function no
    [context_variables]. *)
Definition earlier_overrides_apply (ro : JobRunOverrides)
    (jrf : JobRunnerFunction) : bool :=
  match jrf with
  | JRLocal _ => negb (truthy_dict (ro_context_variables ro))
  | JRCommand _ =>
      negb (truthy_list (ro_function_args ro)
            || truthy_dict (ro_function_kwargs ro))
  | JRFunction _ => negb (truthy_dict (ro_context_variables ro))
  end.

(** The value of [job.job_function] as an observer of the job sees it: the
    function together with the contents of its environment-variable map. *)
Definition job_function_value (σ : env_store) (job : Job)
    : JobFunction * gmap string string :=
  (job_function job,
   match job_function job with
   | JFRunner f => env_of σ (environment_variables f)
   | JFVersioned v => env_of σ (environment_variables (get_job_runner_function v))
   | JFOther => ∅
   end).

(** What C3 says makes the filter active: for some job name, the latest
    event observed for it in the window has a state in [on_states]. *)
Definition latest_observed_matches {Sub} (self : AnyJobStateEventFilter.t)
    (log : EventLog TopicName Sub) (low high : Z) : Prop :=
  ∃ job_name e p,
    job_name ∈ AnyJobStateEventFilter.job_names self ∧
    last (events_in_window log job_name low high) = Some e ∧
    payload e = PJob p ∧
    state p ∈ AnyJobStateEventFilter.on_states self.

(** For some job name, some event observed for it in the window has a
    state in [on_states]. *)
Definition some_observed_matches {Sub} (self : AnyJobStateEventFilter.t)
    (log : EventLog TopicName Sub) (low high : Z) : Prop :=
  ∃ job_name e p,
    job_name ∈ AnyJobStateEventFilter.job_names self ∧
    e ∈ events_in_window log job_name low high ∧
    payload e = PJob p ∧
    state p ∈ AnyJobStateEventFilter.on_states self.

(** Every event observed in the window on the filter's topics carries a
    [JobPayload], as events on job topics do. *)
Definition observes_job_payloads {Sub} (self : AnyJobStateEventFilter.t)
    (log : EventLog TopicName Sub) (low high : Z) : Prop :=
  ∀ e, e ∈ AnyJobStateEventFilter.observed self log low high →
       ∃ p, payload e = PJob p.

(** The job name [n] already contains a key of the scope. *)
Definition name_collides (sc : ScopeValues) (n : TopicName) : Prop :=
  ∃ key, is_Some (sc !! key) ∧ is_Some (n !! key).

(** [after] is [before] expanded into the scope [sc]: the name extended
    with every entry of the scope, the scope field set, the rest as it
    was. *)
Definition expanded_job (sc : ScopeValues) (before after : Job) : Prop :=
  name after = name before ∪ sc ∧
  scope after = sc ∧
  job_function after = job_function before ∧
  trigger_actions after = trigger_actions before ∧
  job_runner_predicate after = job_runner_predicate before ∧
  all_subscribed_topics after = all_subscribed_topics before.

(** The [ScopeValues] payloads among events that are all present. *)
Definition scope_values_of (events : list (Event TopicName))
    : list ScopeValues :=
  omap (λ e, match payload e with PScope s => Some s | _ => None end) events.

(** A scheduler to exercise the loader. A trigger is the name of the topic
    it watches and is active when an event on that topic was delivered in
    the window; an action is a label, and executing it on a job appends a
    [RUN_REQUESTED] event on the job's topic with the label as request id. *)
Module SchedulerExamples.
Abbreviation Job := (Scheduler.Job string string).
Abbreviation Subscriber := Scheduler.Subscriber.
Abbreviation t := (Scheduler.t string string).

Definition topic_names_to_subscribe (trigger : string) : list string :=
  [trigger].

Definition is_active (trigger : string)
    (events : gmap string (list (Event string))) : bool :=
  match events !! trigger with
  | Some (_ :: _) => true
  | _ => false
  end.

Definition action_execute (action : string) (job : Job) (high : Z)
    : M (EventLog string Subscriber) unit := λ log,
  (Ok tt,
   (append_event (Scheduler.name job)
      (PJob (JobPayload2 (Some action) RUN_REQUESTED)) log).2).

(** Job [B1] runs when topic [A1] has an event, job [B2] when [A2] has. *)
Definition job_B1 : Job := Scheduler.mkJob "B1" [("A1", "run-B1")].
Definition job_B2 : Job := Scheduler.mkJob "B2" [("A2", "run-B2")].

Definition empty : t := Scheduler.mk (mkEventLog [] []) ∅ [] [].

(** Both jobs added, subscriptions not yet created. *)
Definition loaded : t :=
  (Scheduler.add_job job_B2 (Scheduler.add_job job_B1 empty).2).2.

Definition bound : t :=
  Scheduler.create_job_subscriptions topic_names_to_subscribe loaded.

(** An event arrives on topic [A1]. *)
Definition after_A1 : t :=
  Scheduler.mk (append_event "A1" POther (Scheduler._event_log bound)).2
    (Scheduler._jobs bound)
    (Scheduler._create_job_subscriptions_queue bound)
    (Scheduler.frames bound).
End SchedulerExamples.

(** The subscription made in frame [f] for a binding: on the topics of the
    binding's trigger, a subscriber that refers to the frame. *)
Definition subscription_of {Trigger Action : Type}
    (topic_names_to_subscribe : Trigger → list string)
    (f : nat) (ta : Trigger * Action) : list string * Scheduler.Subscriber :=
  (topic_names_to_subscribe ta.1, Scheduler.mkSubscriber f).

(** The contents of the cells of a frame once the two loops of
    [create_job_subscriptions] have run over [queue]: each variable holds
    what its last assignment gave it. *)
Definition final_frame {Trigger Action : Type}
    (queue : list (Scheduler.Job Trigger Action))
    (fr : Scheduler.Frame Trigger Action) : Scheduler.Frame Trigger Action :=
  let bindings :=
    flat_map (λ job, map (λ ta, (job, ta.1, ta.2))
                         (Scheduler.trigger_actions job)) queue in
  Scheduler.mkFrame
    (match last queue with
     | Some job => Some job
     | None => Scheduler.cell_job fr
     end)
    (match last bindings with
     | Some b => Some b.1.2
     | None => Scheduler.cell_trigger fr
     end)
    (match last bindings with
     | Some b => Some b.2
     | None => Scheduler.cell_action fr
     end).

(** ** The scheduler at run time ([nextbeat]) *)

Module SchedulerRuntime.
Section runtime.
Context {Trigger Action : Type}.

(** [Action.execute] and [Actions.run] (modules [topic] and [jobs] of
    [nextbeat]) and [EventLog.all_subscribers_called] are not among the
    sources; they enter as parameters. *)
Variable action_execute :
  Action → Scheduler.Job Trigger Action → Z
  → M (EventLog string Scheduler.Subscriber) unit.
Variable Actions_run : Action.
Variable all_subscribers_called : EventLog string Scheduler.Subscriber → bool.

(** [Scheduler.__init__], as far as the fields modelled go: an empty log,
    no job, an empty queue. *)
Definition init : Scheduler.t Trigger Action :=
  Scheduler.mk (mkEventLog [] []) ∅ [] [].

(** One round of the loop of [_get_running_and_requested_jobs]: the event
    the round yields, if it yields. An event object is a true value, so
    [if ev and ...] fails on [None] only. *)
Definition yielded (self : Scheduler.t Trigger Action) (timestamp : Z)
    (name : string) : result (option (Event string)) :=
  match last_event (Scheduler._event_log self) name timestamp with
  | None => Ok None
  | Some ev =>
      match payload_state (payload ev) with
      | Raise e => Raise e
      | Ok st =>
          if bool_decide (st ∈ [RUN_REQUESTED; RUNNING])
          then Ok (Some ev)
          else Ok None
      end
  end.

(** The generator run to its end, as a consumer that iterates over all of
    it sees it. *)
Fixpoint yield_all (self : Scheduler.t Trigger Action) (timestamp : Z)
    (names : list string) : result (list (Event string)) :=
  match names with
  | [] => Ok []
  | name :: rest =>
      match yielded self timestamp name with
      | Raise e => Raise e
      | Ok o =>
          match yield_all self timestamp rest with
          | Raise e => Raise e
          | Ok evs => Ok (option_list o ++ evs)
          end
      end
  end.

(** The keys of [self._jobs]. The registry is a finite map; its keys come
    in the order of the map, not in insertion order. *)
Definition job_names (self : Scheduler.t Trigger Action) : list string :=
  (map_to_list (Scheduler._jobs self)).*1.

Definition _get_running_and_requested_jobs (self : Scheduler.t Trigger Action)
    (timestamp : Z) : result (list (Event string)) :=
  yield_all self timestamp (job_names self).

(** [any(True for _ in gen)]: the generator is advanced until its first
    yield, and no further. *)
Fixpoint any_yielded (self : Scheduler.t Trigger Action) (timestamp : Z)
    (names : list string) : result bool :=
  match names with
  | [] => Ok false
  | name :: rest =>
      match yielded self timestamp name with
      | Raise e => Raise e
      | Ok (Some _) => Ok true
      | Ok None => any_yielded self timestamp rest
      end
  end.

Definition all_are_waiting (self : Scheduler.t Trigger Action) : result bool :=
  if all_subscribers_called (Scheduler._event_log self)
  then
    match any_yielded self (curr_timestamp (Scheduler._event_log self))
            (job_names self) with
    | Raise e => Raise e
    | Ok b => Ok (negb b)
    end
  else Ok false.

(** The scheduler together with the callbacks handed to its event loop and
    not yet run: each is a call of [_run_action] on a job and an action. *)
Record EventLoop := mkEventLoop {
  scheduler : Scheduler.t Trigger Action;
  call_soon : list (Scheduler.Job Trigger Action * Action)
}.

(** The [ValueError] of [manual_run]. *)
Inductive manual_run_error := UnknownJob.

Definition manual_run (job_name : string) (loop : EventLoop)
    : (manual_run_error + unit) * EventLoop :=
  match Scheduler._jobs (scheduler loop) !! job_name with
  | None => (inl UnknownJob, loop)
  | Some job =>
      (inr tt,
       mkEventLoop (scheduler loop) (call_soon loop ++ [(job, Actions_run)]))
  end.

(** [_run_action]: the action is executed at the current timestamp; an
    exception it raises is printed and goes no further. *)
Definition _run_action (topic : Scheduler.Job Trigger Action) (action : Action)
    : M (Scheduler.t Trigger Action) unit := λ self,
  let log := Scheduler._event_log self in
  let '(_, log') := action_execute action topic (curr_timestamp log) log in
  (Ok tt,
   Scheduler.mk log' (Scheduler._jobs self)
     (Scheduler._create_job_subscriptions_queue self) (Scheduler.frames self)).
End runtime.
Arguments EventLoop : clear implicits.
End SchedulerRuntime.

(** What the loader of the scheduler can be asked to do, and a sequence of
    such requests run in order; a rejected [add_job] is skipped over, as a
    caller that catches the error would. *)
Inductive loader_request (Trigger Action : Type) :=
  | AddJob (job : Scheduler.Job Trigger Action)
  | CreateJobSubscriptions.
Arguments AddJob {Trigger Action} job.
Arguments CreateJobSubscriptions {Trigger Action}.

Definition load {Trigger Action : Type}
    (topic_names_to_subscribe : Trigger → list string)
    (requests : list (loader_request Trigger Action))
    (self : Scheduler.t Trigger Action) : Scheduler.t Trigger Action :=
  foldl (λ self request,
           match request with
           | AddJob job => (Scheduler.add_job job self).2
           | CreateJobSubscriptions =>
               Scheduler.create_job_subscriptions topic_names_to_subscribe self
           end)
        self requests.

(** A job's latest event at or before [t], if any, is a job event that is
    neither [RUN_REQUESTED] nor [RUNNING]. *)
Definition not_in_flight {Topic Sub : Type} `{!EqDecision Topic}
    (log : EventLog Topic Sub) (topic : Topic) (t : Z) : Prop :=
  match last_event log topic t with
  | None => True
  | Some ev =>
      ∃ p, payload ev = PJob p ∧
           state p ≠ RUN_REQUESTED ∧ state p ≠ RUNNING
  end.

(** The variant of a runner function. *)
Inductive variant := Local | DeployedCommand | DeployedFunction.

Definition variant_of (jrf : JobRunnerFunction) : variant :=
  match jrf with
  | JRLocal _ => Local
  | JRCommand _ => DeployedCommand
  | JRFunction _ => DeployedFunction
  end.

(** The function [Run.execute] resolves [job.job_function] to, if it is a
    job function at all. *)
Definition resolved (job : Job) : option JobRunnerFunction :=
  match job_function job with
  | JFRunner f => Some f
  | JFVersioned v => Some (get_job_runner_function v)
  | JFOther => None
  end.

(** What a runner function calls: the function pointer, the command line,
    or the name of the deployed function. *)
Definition callee (jrf : JobRunnerFunction) : list string :=
  match jrf with
  | JRLocal f => [function_pointer f]
  | JRCommand c => command_line c
  | JRFunction f => [mr_function_name (meadowrun_function f)]
  end.

(** The first two rules of [_apply_job_run_overrides] on their own; they
    touch no dict. *)
Definition function_args_rule (ro : JobRunOverrides) (jrf : JobRunnerFunction)
    : result JobRunnerFunction :=
  if truthy_list (ro_function_args ro) || truthy_dict (ro_function_kwargs ro)
  then
    match jrf with
    | JRLocal f => Ok (JRLocal (replace_local ro f))
    | JRFunction f =>
        Ok (JRFunction
              (mkMeadowRunDeployedFunction
                 (replace_meadowrun ro (meadowrun_function f))
                 (function_environment_variables f)))
    | JRCommand _ => Raise (ValueError OverrideNotApplicable)
    end
  else Ok jrf.

Definition context_variables_rule (ro : JobRunOverrides)
    (jrf : JobRunnerFunction) : result JobRunnerFunction :=
  if truthy_dict (ro_context_variables ro)
  then
    match jrf with
    | JRCommand c =>
        Ok (JRCommand
              (mkMeadowRunDeployedCommand (command_line c)
                 (ro_context_variables ro) (command_environment_variables c)))
    | _ => Raise (ValueError OverrideNotApplicable)
    end
  else Ok jrf.

(** Whether the overrides of a run carry a database-userspace name. *)
Definition carries_userspace (run_overrides : option JobRunOverrides) : bool :=
  match run_overrides with
  | Some ro => truthy_str (meadowdb_userspace ro)
  | None => false
  end.

(** An event whose payload says the job is requested or running. *)
Definition in_flight {Topic : Type} (ev : Event Topic) : Prop :=
  ∃ p, payload ev = PJob p ∧ (state p = RUN_REQUESTED ∨ state p = RUNNING).

(** More scope functions and deliveries to exercise the wrapper. *)
Module ScopeExamples.
(** Two jobs, at two locations, with names that have no key of the scope. *)
Definition make_two_jobs (_ : ScopeValues) : M job_store (list loc) :=
  λ h, (Ok [0%nat; 1%nat],
        <[0%nat := Examples.local_job "j1"]>
          (<[1%nat := Examples.local_job "j2"]> h)).

(** One job, returned twice. *)
Definition make_same_job_twice (_ : ScopeValues) : M job_store (list loc) :=
  λ h, (Ok [0%nat; 0%nat], <[0%nat := Examples.local_job "j1"]> h).

(** A delivery with no scope at all: the one event is a job event. *)
Definition delivered_no_scope : gmap TopicName (option (Event TopicName)) :=
  {[ Examples.topic "A" := Some (Examples.job_event "A" 1 None WAITING) ]}.
End ScopeExamples.

(** * Properties *)

(** ** Generic facts about the event log *)

Section event_log_facts.
Context {Topic : Type} `{!EqDecision Topic} {Sub : Type}.
Implicit Types (log : EventLog Topic Sub) (e : Event Topic).

Lemma last_elem_of {A} (l : list A) (x : A) : last l = Some x → x ∈ l.
Proof.
  rewrite last_Some. intros [l' ->]. apply elem_of_app. right.
  apply list_elem_of_singleton. reflexivity.
Qed.

Lemma last_event_on_topic log topic t e :
  last_event log topic t = Some e →
  e ∈ log_events log ∧ topic_name e = topic ∧ timestamp e ≤ t.
Proof.
  unfold last_event. intros H%last_elem_of.
  apply list_elem_of_filter in H as [[Ht Hle] Hin]. auto.
Qed.

(** The event returned is the most recent one: nothing on the topic and
    within the bound was appended after it. *)
Lemma last_event_most_recent log topic t e :
  last_event log topic t = Some e →
  ∃ before after,
    log_events log = before ++ e :: after ∧
    Forall (λ e', ¬ on_topic_until topic t e') after.
Proof.
  unfold last_event. generalize (log_events log). intros l.
  induction l as [|x l IH] using rev_ind; [discriminate|].
  rewrite filter_app. simpl. rewrite filter_cons, filter_nil.
  destruct (decide (on_topic_until topic t x)) as [Hx|Hx].
  - rewrite last_snoc. intros [= ->]. exists l, []. split; [done|constructor].
  - rewrite app_nil_r. intros H. destruct (IH H) as (b & a & -> & Ha).
    exists b, (a ++ [x]). split.
    + by rewrite <- app_assoc.
    + apply Forall_app. split; [done|]. by constructor.
Qed.

Lemma last_event_None log topic t :
  last_event log topic t = None ↔
  ∀ e, e ∈ log_events log → ¬ on_topic_until topic t e.
Proof.
  unfold last_event. rewrite last_None. split.
  - intros H e He Hp.
    assert (e ∈ filter (on_topic_until topic t) (log_events log)) as Hin
      by (apply list_elem_of_filter; auto).
    rewrite H in Hin. by apply not_elem_of_nil in Hin.
  - intros H. destruct (filter _ _) as [|x l] eqn:E; [done|].
    assert (x ∈ filter (on_topic_until topic t) (log_events log)) as Hin
      by (rewrite E; left).
    apply list_elem_of_filter in Hin as [Hp Hin]. by destruct (H x).
Qed.
End event_log_facts.

(** ** The [Run] action: single flight *)

Section run_single_flight.
Variable replace_latest_events :
  JobRunnerFunction → Job → EventLog TopicName unit → Z → JobRunnerFunction.

Local Abbreviation execute := (Run.execute replace_latest_events).

(** The branch [execute] takes on an in-flight job. *)
Lemma execute_in_flight job run_overrides runners t uuid4 rnd w ev p :
  last_event (event_log w) (name job) t = Some ev →
  payload ev = PJob p →
  state p = RUN_REQUESTED ∨ state p = RUNNING →
  execute job run_overrides runners t uuid4 rnd w = (Ok (request_id p), w).
Proof.
  intros Hev Hp Hst. unfold Run.execute, bind, get, lift. simpl.
  rewrite Hev, Hp. simpl.
  rewrite bool_decide_eq_true_2; [reflexivity|].
  destruct Hst as [-> | ->]; set_solver.
Qed.

(** C1. If the latest event on the job's topic at or before [t] exists and
    its payload state is [RUN_REQUESTED] or [RUNNING], then [Run.execute]
    returns that event's request id and leaves the world, hence the event
    log, as it was: no event is appended. A second call made right after
    the first, whatever its overrides, runners, UUID and random draw,
    returns the same request id and again appends nothing. *)
Theorem execute_single_flight job t w ev p
    run_overrides runners uuid4 rnd run_overrides' runners' uuid4' rnd' :
  last_event (event_log w) (name job) t = Some ev →
  payload ev = PJob p →
  state p = RUN_REQUESTED ∨ state p = RUNNING →
  ∃ w1 w2,
    execute job run_overrides runners t uuid4 rnd w
      = (Ok (request_id p), w1) ∧
    log_events (event_log w1) = log_events (event_log w) ∧
    execute job run_overrides' runners' t uuid4' rnd' w1
      = (Ok (request_id p), w2) ∧
    log_events (event_log w2) = log_events (event_log w1) ∧
    w2 = w.
Proof.
  intros Hev Hp Hst. exists w, w.
  rewrite !(execute_in_flight _ _ _ _ _ _ _ _ _ Hev Hp Hst). auto.
Qed.
End run_single_flight.

Lemma execute_single_flight_witness :
  ∃ w1 w2,
    Run.execute Examples.no_latest_events (Examples.local_job "A") None
      [Examples.eager_runner 0] 2 "u1" 0 (mkWorld Examples.requested_log ∅)
      = (Ok (Some "r1"), w1) ∧
    log_events (event_log w1) = log_events Examples.requested_log ∧
    Run.execute Examples.no_latest_events (Examples.local_job "A") None
      [Examples.eager_runner 0] 2 "u2" 5 w1
      = (Ok (Some "r1"), w2) ∧
    log_events (event_log w2) = log_events (event_log w1) ∧
    w2 = mkWorld Examples.requested_log ∅.
Proof.
  apply (execute_single_flight Examples.no_latest_events
           (Examples.local_job "A") 2 (mkWorld Examples.requested_log ∅)
           (Examples.job_event "A" 2 (Some "r1") RUN_REQUESTED)
           (JobPayload2 (Some "r1") RUN_REQUESTED)).
  - vm_compute. reflexivity.
  - reflexivity.
  - left. reflexivity.
Defined.

(** ** Runner selection *)

Lemma random_choice_in {A} (rnd : nat) (seq : list A) :
  seq ≠ [] →
  ∃ x, random_choice rnd seq = Some x ∧ x ∈ seq.
Proof.
  intros Hne. unfold random_choice.
  assert (length seq ≠ 0)%nat as Hlen by (destruct seq; simpl; [done|lia]).
  destruct (lookup_lt_is_Some_2 seq (rnd `mod` length seq)%nat) as [x Hx].
  { apply Nat.mod_upper_bound. exact Hlen. }
  exists x. split; [exact Hx|]. apply list_elem_of_lookup. eauto.
Qed.

Lemma random_choice_index {A} (i : nat) (seq : list A) (x : A) :
  seq !! i = Some x → random_choice i seq = Some x.
Proof.
  intros Hx. unfold random_choice.
  rewrite Nat.mod_small; [exact Hx|]. by apply lookup_lt_Some in Hx.
Qed.

Lemma choose_job_runner_raises job jrf runners rnd e :
  choose_job_runner job jrf runners rnd = Raise e →
  e = ValueError NoCompatibleRunner ∧
  compatible_job_runners job jrf runners = [].
Proof.
  unfold choose_job_runner. case_bool_decide as Hlen.
  - intros [= <-]. split; [done|]. by apply length_zero_iff_nil.
  - assert (compatible_job_runners job jrf runners ≠ []) as Hne
      by (intros Hnil; by rewrite Hnil in Hlen).
    destruct (random_choice_in rnd _ Hne) as (x & -> & _). by intros [=].
Qed.

(** The world [Run.start_run] leaves behind when no runner is found has the
    event log it started from. *)
Lemma start_run_no_runner rle job ro runners t uuid4 rnd w w' :
  Run.start_run rle job ro runners t uuid4 rnd w
    = (Raise (ValueError NoCompatibleRunner), w') →
  event_log w' = event_log w.
Proof.
  unfold Run.start_run, bind, get, lift, ret, raise, on_env_dicts,
    on_event_log, await_run.
  destruct (job_function job) as [f|v|]; simpl; [| |by intros [= <-]].
  all: match goal with
       | |- context [_apply_job_run_overrides ?o ?g ?s] =>
           destruct (_apply_job_run_overrides o g s) as [[jrf|e] σ]
       end; simpl; [|by intros [= ? <-]].
  all: match goal with
       | |- context [choose_job_runner ?j ?g ?rs ?r] =>
           destruct (choose_job_runner j g rs r) as [jr|e]
       end; simpl; [|by intros [= ? <-]].
  all: match goal with
       | |- context [run ?r ?a ?b ?c ?d] =>
           destruct (run r a b c d) as [[|] log']
       end; simpl; intros [=].
Qed.

(** C4. [choose_job_runner] draws from the runners that pass the job's
    predicate (all of them when there is none) and whose
    [can_run_function] accepts the function: whatever the entropy, the runner
    returned is one of these candidates; the draw is uniform in that the
    entropy values [0 .. n-1] return the [n] candidates one each, in order.
    It raises, and then raises [NoCompatibleRunner], exactly when there is no
    candidate. When [Run.execute] fails in this way, the event log is the one
    the call started with. *)
Theorem choose_job_runner_spec job jrf runners :
  let candidates :=
    filter (λ jr, can_run_function jr jrf = true)
      (match job_runner_predicate job with
       | None => runners
       | Some p => filter (λ jr, predicate_apply p jr = true) runners
       end) in
  (∀ rnd jr, choose_job_runner job jrf runners rnd = Ok jr → jr ∈ candidates) ∧
  (map (choose_job_runner job jrf runners) (seq 0 (length candidates))
     = map Ok candidates) ∧
  (∀ rnd, candidates = [] ↔
          choose_job_runner job jrf runners rnd
            = Raise (ValueError NoCompatibleRunner)) ∧
  (∀ rnd e, choose_job_runner job jrf runners rnd = Raise e →
            e = ValueError NoCompatibleRunner) ∧
  (∀ rle run_overrides available t uuid4 rnd w w',
     Run.execute rle job run_overrides available t uuid4 rnd w
       = (Raise (ValueError NoCompatibleRunner), w') →
     event_log w' = event_log w).
Proof.
  intros candidates.
  assert (candidates = compatible_job_runners job jrf runners) as Hc
    by reflexivity.
  split; [|split; [|split; [|split]]].
  - intros rnd jr. unfold choose_job_runner. rewrite <- Hc.
    case_bool_decide as Hlen; [done|].
    assert (candidates ≠ []) as Hne
      by (intros Hnil; by rewrite Hnil in Hlen).
    destruct (random_choice_in rnd _ Hne) as (x & Hx & Hin).
    rewrite Hx. by intros [= <-].
  - apply list_eq. intros i. rewrite !list_lookup_fmap.
    destruct (candidates !! i) as [jr|] eqn:Hi; simpl.
    + rewrite lookup_seq_lt by (by apply lookup_lt_Some in Hi). simpl.
      f_equal. unfold choose_job_runner. rewrite <- Hc.
      rewrite bool_decide_eq_false_2.
      * by rewrite (random_choice_index i candidates jr Hi).
      * apply lookup_lt_Some in Hi. lia.
    + rewrite lookup_seq_ge; [done|]. by apply lookup_ge_None in Hi.
  - intros rnd. split.
    + intros Hnil. unfold choose_job_runner. rewrite <- Hc, Hnil. reflexivity.
    + intros H. apply choose_job_runner_raises in H as [_ H]. by rewrite Hc.
  - intros rnd e H. by apply choose_job_runner_raises in H as [-> _].
  - intros rle ro available t uuid4 rnd w w'.
    unfold Run.execute, bind, get, lift. simpl.
    destruct (last_event (event_log w) (name job) t) as [ev|].
    + destruct (payload_state (payload ev)) as [st|e]; simpl;
        [|by intros [= ? <-]].
      case_bool_decide.
      * destruct (payload_request_id (payload ev)); by intros [= ? <-].
      * apply start_run_no_runner.
    + apply start_run_no_runner.
Qed.

Lemma choose_job_runner_spec_witness :
  choose_job_runner (Examples.local_job "A") Examples.deployed_command
    [Examples.local_runner 0] 7 = Raise (ValueError NoCompatibleRunner).
Proof.
  destruct (choose_job_runner_spec (Examples.local_job "A")
              Examples.deployed_command [Examples.local_runner 0])
    as (_ & _ & H & _).
  apply (H 7%nat). vm_compute. reflexivity.
Defined.

(** ** Override application *)

Lemma alloc_userspace_env (jrf : JobRunnerFunction) (σ : env_store) (u : string) :
  (∀ f, jrf ≠ JRLocal f) →
  env_of σ (environment_variables jrf) = ∅ →
  let l := fresh (dom σ) in
  env_of (<[l := {[MEADOWDB_DEFAULT_USERSPACE := u]}]> σ)
         (environment_variables (replace_environment_variables jrf l))
  = <[MEADOWDB_DEFAULT_USERSPACE := u]> (env_of σ (environment_variables jrf)).
Proof.
  intros Hremote Hempty l. rewrite Hempty, insert_empty.
  destruct jrf as [f|c|f]; [by destruct (Hremote f)| |]; simpl;
    by rewrite lookup_total_insert_eq.
Qed.

(** The userspace rule alone, on a remote variant. *)
Lemma userspace_rule (jrf : JobRunnerFunction) (σ : env_store) (u : string) :
  (∀ f, jrf ≠ JRLocal f) →
  ∃ jrf' σ',
    set_userspace u jrf σ = (Ok jrf', σ') ∧
    (∀ f, jrf' ≠ JRLocal f) ∧
    env_of σ' (environment_variables jrf')
    = <[MEADOWDB_DEFAULT_USERSPACE := u]> (env_of σ (environment_variables jrf)).
Proof.
  intros Hremote.
  assert (∀ l f, replace_environment_variables jrf l ≠ JRLocal f) as Hrepl.
  { intros l f. destruct jrf as [f0| |]; [by destruct (Hremote f0)|done|done]. }
  unfold set_userspace, bind, get, ret, update_dict, alloc_dict. simpl.
  destruct (environment_variables jrf) as [l|] eqn:Henv.
  - case_bool_decide as Hne.
    + eexists _, _. split; [reflexivity|]. split; [done|]. rewrite Henv. simpl.
      by rewrite lookup_total_insert_eq.
    + eexists _, _. split; [reflexivity|]. split; [done|].
      rewrite <- Henv. apply alloc_userspace_env; [done|].
      rewrite Henv. simpl. exact Hne.
  - eexists _, _. split; [reflexivity|]. split; [done|].
    rewrite <- Henv. apply alloc_userspace_env; [done|]. by rewrite Henv.
Qed.

(** C5, as the code has it. For overrides that carry a non-empty
    database-userspace name [u]: on a local function, override application
    raises [OverrideNotApplicable]; on a remote variant (deployed command or
    deployed function) to which the other override fields apply, it returns
    a function whose environment-variable map is the old map with [u]
    inserted under the key [MEADOWDB_DEFAULT_USERSPACE], so that every entry
    under another key is preserved; on a remote variant to which the other
    fields do not apply it raises [OverrideNotApplicable]. *)
Theorem apply_overrides_userspace (ro : JobRunOverrides)
    (jrf : JobRunnerFunction) (σ : env_store) (u : string) :
  meadowdb_userspace ro = Some u →
  u ≠ "" →
  match jrf with
  | JRLocal _ =>
      _apply_job_run_overrides (Some ro) jrf σ
      = (Raise (ValueError OverrideNotApplicable), σ)
  | _ =>
      if earlier_overrides_apply ro jrf
      then
        ∃ jrf' σ',
          _apply_job_run_overrides (Some ro) jrf σ = (Ok jrf', σ') ∧
          (∀ f, jrf' ≠ JRLocal f) ∧
          env_of σ' (environment_variables jrf')
          = <[MEADOWDB_DEFAULT_USERSPACE := u]>
              (env_of σ (environment_variables jrf)) ∧
          env_of σ' (environment_variables jrf') !! MEADOWDB_DEFAULT_USERSPACE
          = Some u ∧
          (∀ k, k ≠ MEADOWDB_DEFAULT_USERSPACE →
                env_of σ' (environment_variables jrf') !! k
                = env_of σ (environment_variables jrf) !! k)
      else
        _apply_job_run_overrides (Some ro) jrf σ
        = (Raise (ValueError OverrideNotApplicable), σ)
  end.
Proof.
  intros Hu Hne.
  assert (truthy_str (meadowdb_userspace ro) = true) as Htruthy
    by (rewrite Hu; simpl; by apply bool_decide_eq_true_2).
  assert (default "" (meadowdb_userspace ro) = u) as Hdef by (by rewrite Hu).
  assert (∀ (j j' : JobRunnerFunction) (s s' : env_store),
            (∀ f, j' ≠ JRLocal f) →
            env_of s' (environment_variables j')
            = <[MEADOWDB_DEFAULT_USERSPACE := u]>
                (env_of s (environment_variables j)) →
            (∀ f, j' ≠ JRLocal f) ∧
            env_of s' (environment_variables j')
            = <[MEADOWDB_DEFAULT_USERSPACE := u]>
                (env_of s (environment_variables j)) ∧
            env_of s' (environment_variables j') !! MEADOWDB_DEFAULT_USERSPACE
            = Some u ∧
            (∀ k, k ≠ MEADOWDB_DEFAULT_USERSPACE →
                  env_of s' (environment_variables j') !! k
                  = env_of s (environment_variables j) !! k)) as Hpack.
  { intros j j' s s' Hr ->. split; [done|]. split; [done|]. split.
    - apply lookup_insert_eq.
    - intros k Hk. by apply lookup_insert_ne. }
  assert (∀ j : JobRunnerFunction,
            (∀ f, j ≠ JRLocal f) →
            environment_variables j = environment_variables jrf →
            ∃ jrf' σ',
              set_userspace u j σ = (Ok jrf', σ') ∧
              (∀ f, jrf' ≠ JRLocal f) ∧
              env_of σ' (environment_variables jrf')
              = <[MEADOWDB_DEFAULT_USERSPACE := u]>
                  (env_of σ (environment_variables jrf)) ∧
              env_of σ' (environment_variables jrf')
                !! MEADOWDB_DEFAULT_USERSPACE = Some u ∧
              (∀ k, k ≠ MEADOWDB_DEFAULT_USERSPACE →
                    env_of σ' (environment_variables jrf') !! k
                    = env_of σ (environment_variables jrf) !! k)) as Hfinish.
  { intros j Hremote Hsame.
    destruct (userspace_rule j σ u Hremote) as (jrf' & σ' & Hrun & Hr & Henv).
    exists jrf', σ'. split; [exact Hrun|].
    apply (Hpack jrf); [exact Hr|]. by rewrite <- Hsame. }
  destruct jrf as [f|c|f];
    unfold _apply_job_run_overrides, earlier_overrides_apply;
    rewrite Htruthy, Hdef.
  - (* local function *)
    destruct (_ || _); destruct (truthy_dict (ro_context_variables ro));
      reflexivity.
  - (* deployed command *)
    destruct (_ || _); simpl; [reflexivity|].
    destruct (truthy_dict (ro_context_variables ro)).
    + apply (Hfinish (JRCommand (mkMeadowRunDeployedCommand (command_line c)
                                   (ro_context_variables ro)
                                   (command_environment_variables c))));
        [done|reflexivity].
    + apply (Hfinish (JRCommand c)); [done|reflexivity].
  - (* deployed function *)
    destruct (truthy_dict (ro_context_variables ro));
      destruct (_ || _); simpl; try reflexivity.
    + apply (Hfinish (JRFunction (mkMeadowRunDeployedFunction
                                    (replace_meadowrun ro (meadowrun_function f))
                                    (function_environment_variables f))));
        [done|reflexivity].
    + apply (Hfinish (JRFunction f)); [done|reflexivity].
Qed.

Lemma apply_overrides_userspace_witness :
  ∃ jrf' σ',
    _apply_job_run_overrides (Some (Examples.userspace_override "prod"))
      Examples.deployed_command Examples.path_store = (Ok jrf', σ') ∧
    (∀ f, jrf' ≠ JRLocal f) ∧
    env_of σ' (environment_variables jrf')
    = <[MEADOWDB_DEFAULT_USERSPACE := "prod"]>
        (env_of Examples.path_store
           (environment_variables Examples.deployed_command)) ∧
    env_of σ' (environment_variables jrf') !! MEADOWDB_DEFAULT_USERSPACE
    = Some "prod" ∧
    (∀ k, k ≠ MEADOWDB_DEFAULT_USERSPACE →
          env_of σ' (environment_variables jrf') !! k
          = env_of Examples.path_store
              (environment_variables Examples.deployed_command) !! k).
Proof.
  apply (apply_overrides_userspace (Examples.userspace_override "prod")
           Examples.deployed_command Examples.path_store "prod").
  - reflexivity.
  - discriminate.
Defined.

(** C5 as stated fails on the key: after the override is applied to a
    deployed command, the environment-variable map has no entry under
    [DB_DEFAULT_USERSPACE]; the name is under [MEADOWDB_DEFAULT_USERSPACE].
    It also fails on overrides whose other fields do not apply to the remote
    variant (with [function_args] given, a deployed command is rejected and
    nothing is inserted), on an empty name (a local function is then
    accepted), and on an existing entry under the key itself, which is
    overwritten. *)
Lemma apply_overrides_userspace_counterexample :
  (∃ jrf' σ',
     _apply_job_run_overrides (Some (Examples.userspace_override "prod"))
       Examples.deployed_command Examples.path_store = (Ok jrf', σ') ∧
     env_of σ' (environment_variables jrf') !! "DB_DEFAULT_USERSPACE" = None ∧
     env_of σ' (environment_variables jrf') !! "MEADOWDB_DEFAULT_USERSPACE"
     = Some "prod") ∧
  _apply_job_run_overrides
    (Some (mkJobRunOverrides (Some ["x"]) None None (Some "prod")))
    Examples.deployed_command Examples.path_store
  = (Raise (ValueError OverrideNotApplicable), Examples.path_store) ∧
  _apply_job_run_overrides (Some (Examples.userspace_override ""))
    (JRLocal (mkLocalFunction "f" [] ∅)) Examples.path_store
  = (Ok (JRLocal (mkLocalFunction "f" [] ∅)), Examples.path_store) ∧
  (∃ jrf' σ',
     _apply_job_run_overrides (Some (Examples.userspace_override "prod"))
       Examples.deployed_command
       {[ 0%nat := {[ "MEADOWDB_DEFAULT_USERSPACE" := "dev" ]} ]}
     = (Ok jrf', σ') ∧
     env_of σ' (environment_variables jrf') !! "MEADOWDB_DEFAULT_USERSPACE"
     = Some "prod").
Proof.
  split; [|split; [reflexivity|split; [reflexivity|]]].
  - eexists _, _. split; [vm_compute; reflexivity|].
    split; vm_compute; reflexivity.
  - eexists _, _. split; [vm_compute; reflexivity|]. vm_compute. reflexivity.
Qed.

(** ** [Run.execute] and the job it is given *)

(** C7 fails on the code. A job whose function is a deployed command with
    a non-empty environment-variable dict is run with an override that
    carries a userspace name: the run is started, and afterwards the job's
    own environment-variable map has the extra entry
    [MEADOWDB_DEFAULT_USERSPACE], so [job.job_function] is not equal to its
    value before the call. *)
Theorem execute_mutates_job_function :
  let job := Examples.command_job "A" in
  let w := mkWorld Examples.waiting_log Examples.path_store in
  ∃ w',
    Run.execute Examples.no_latest_events job
      (Some (Examples.userspace_override "prod"))
      [Examples.eager_runner 0] 1 "u1" 0 w = (Ok (Some "u1"), w') ∧
    job_function_value (env_dicts w) job
    = (job_function job, {[ "PATH" := "/bin" ]}) ∧
    job_function_value (env_dicts w') job
    = (job_function job,
       {[ "PATH" := "/bin"; "MEADOWDB_DEFAULT_USERSPACE" := "prod" ]}) ∧
    job_function_value (env_dicts w') job ≠ job_function_value (env_dicts w) job.
Proof.
  intros job w. eexists. split; [vm_compute; reflexivity|].
  split; [vm_compute; reflexivity|]. split; [vm_compute; reflexivity|].
  intros H.
  apply (f_equal (λ v, v.2 !! "MEADOWDB_DEFAULT_USERSPACE")) in H.
  vm_compute in H. discriminate H.
Qed.

(** The mutation is there even when the run is not started: with no
    compatible runner the call raises, and the job's map has changed all the
    same. *)
Lemma execute_mutates_job_function_on_failure :
  let job := Examples.command_job "A" in
  let w := mkWorld Examples.waiting_log Examples.path_store in
  ∃ w',
    Run.execute Examples.no_latest_events job
      (Some (Examples.userspace_override "prod")) [] 1 "u1" 0 w
    = (Raise (ValueError NoCompatibleRunner), w') ∧
    event_log w' = event_log w ∧
    job_function_value (env_dicts w') job ≠ job_function_value (env_dicts w) job.
Proof.
  intros job w. eexists. split; [vm_compute; reflexivity|].
  split; [reflexivity|]. intros H.
  apply (f_equal (λ v, v.2 !! "MEADOWDB_DEFAULT_USERSPACE")) in H.
  vm_compute in H. discriminate H.
Qed.

(** ** The state predicate *)

Section all_job_state_predicate.
Variable CURRENT_JOB : TopicName.
Context {Sub : Type}.
Implicit Types (self : AllJobStatePredicate.t)
  (event_log : EventLog TopicName Sub).

Lemma apply_from_true self event_log high current names :
  AllJobStatePredicate.apply_from CURRENT_JOB self event_log high current
    names = Ok true ↔
  ∀ job_name, job_name ∈ names →
    ∃ e p,
      last_event event_log
        (AllJobStatePredicate.substitute CURRENT_JOB current job_name) high
      = Some e ∧
      payload e = PJob p ∧
      state p ∈ AllJobStatePredicate.on_states self.
Proof.
  induction names as [|n names IH]; simpl.
  - split; [|done]. intros _ jn Hin. by apply not_elem_of_nil in Hin.
  - destruct (last_event event_log _ high) as [e|] eqn:He.
    + destruct (payload e) as [p| |] eqn:Hp; simpl.
      * case_bool_decide as Hst.
        -- split; [done|]. intros H.
           destruct (H n) as (e' & p' & He' & Hp' & Hin); [left|].
           rewrite He in He'. injection He' as <-.
           rewrite Hp in Hp'. injection Hp' as <-. done.
        -- rewrite IH. split.
           ++ intros H jn [->|Hin]%elem_of_cons; [|by apply H].
              exists e, p. by rewrite He.
           ++ intros H jn Hin. apply H. by right.
      * split; [done|]. intros H.
        destruct (H n) as (e' & p' & He' & Hp' & _); [left|].
        rewrite He in He'. injection He' as <-. by rewrite Hp in Hp'.
      * split; [done|]. intros H.
        destruct (H n) as (e' & p' & He' & Hp' & _); [left|].
        rewrite He in He'. injection He' as <-. by rewrite Hp in Hp'.
    + split; [done|]. intros H.
      destruct (H n) as (e' & p' & He' & _); [left|]. by rewrite He in He'.
Qed.

(** C8. [AllJobStatePredicate(job_names, on_states).apply] returns [True]
    if and only if, for every job name of the predicate, with the
    [CURRENT_JOB] sentinel replaced by the current job's name, the last
    event at or before [high] exists and its payload state is in
    [on_states]. *)
Theorem all_job_state_predicate_apply self event_log low high current :
  AllJobStatePredicate.apply CURRENT_JOB self event_log low high current
    = Ok true ↔
  ∀ job_name, job_name ∈ AllJobStatePredicate.job_names self →
    ∃ e p,
      last_event event_log
        (if decide (job_name = CURRENT_JOB) then current else job_name) high
      = Some e ∧
      payload e = PJob p ∧
      state p ∈ AllJobStatePredicate.on_states self.
Proof. apply apply_from_true. Qed.
End all_job_state_predicate.

(** ** The event filter *)

Section any_job_state_event_filter.
Context {Sub : Type}.
Implicit Types (self : AnyJobStateEventFilter.t)
  (log : EventLog TopicName Sub) (e : Event TopicName).

Lemma apply_job_payload self e p :
  payload e = PJob p →
  AnyJobStateEventFilter.apply self e
  = Ok (bool_decide (state p ∈ AnyJobStateEventFilter.on_states self)).
Proof. unfold AnyJobStateEventFilter.apply. by intros ->. Qed.

Lemma apply_each_job_payloads self (events : list (Event TopicName)) :
  (∀ e, e ∈ events → ∃ p, payload e = PJob p) →
  ∃ matches,
    AnyJobStateEventFilter.apply_each self events = Ok matches ∧
    (existsb id matches = true ↔
     ∃ e p, e ∈ events ∧ payload e = PJob p ∧
            state p ∈ AnyJobStateEventFilter.on_states self).
Proof.
  induction events as [|e events IH]; intros Hjob.
  - exists []. split; [done|]. split; [done|].
    intros (e & p & Hin & _). by apply not_elem_of_nil in Hin.
  - destruct (Hjob e) as [p Hp]; [left|].
    destruct IH as (bs & Hbs & Hiff).
    { intros e' He'. apply Hjob. by right. }
    simpl. rewrite (apply_job_payload self e p Hp), Hbs.
    eexists. split; [reflexivity|]. simpl. rewrite orb_true_iff, Hiff.
    rewrite bool_decide_eq_true. split.
    + intros [Hst | (e' & p' & Hin & Hp' & Hst)].
      * exists e, p. split; [left|done].
      * exists e', p'. split; [by right|done].
    + intros (e' & p' & [->|Hin]%elem_of_cons & Hp' & Hst).
      * left. rewrite Hp in Hp'. by injection Hp' as ->.
      * right. by exists e', p'.
Qed.

Lemma elem_of_observed self log low high e :
  e ∈ AnyJobStateEventFilter.observed self log low high ↔
  ∃ job_name,
    job_name ∈ AnyJobStateEventFilter.job_names self ∧
    e ∈ events_in_window log job_name low high.
Proof.
  unfold AnyJobStateEventFilter.observed,
    AnyJobStateEventFilter.topic_names_to_subscribe.
  induction (AnyJobStateEventFilter.job_names self) as [|n names IH]; simpl.
  - split.
    + intros H. by apply not_elem_of_nil in H.
    + intros (jn & H & _). by apply not_elem_of_nil in H.
  - rewrite elem_of_app, IH. split.
    + intros [H | (jn & Hin & H)].
      * exists n. split; [left|done].
      * exists jn. split; [by right|done].
    + intros (jn & [->|Hin]%elem_of_cons & H); [by left|].
      right. by exists jn.
Qed.

End any_job_state_event_filter.



(** ** Scope expansion *)

Lemma extend_name_Ok (items : list (string * string)) (n n' : TopicName) :
  extend_name items n = Ok n' →
  n' = n ∪ list_to_map items ∧ ∀ k v, (k, v) ∈ items → n !! k = None.
Proof.
  revert n. induction items as [|[k v] items IH]; intros n; simpl.
  - intros [= <-]. split; [by rewrite (right_id_L ∅ (∪))|].
    intros k v H. by apply not_elem_of_nil in H.
  - case_bool_decide as Hk; [done|]. intros H.
    apply eq_None_not_Some in Hk.
    destruct (IH _ H) as [-> Hfresh]. split.
    + by rewrite <- insert_union_l, insert_union_r.
    + intros k' v' [[= -> ->]|Hin]%elem_of_cons; [done|].
      specialize (Hfresh k' v' Hin).
      destruct (decide (k = k')) as [->|Hne].
      * by rewrite lookup_insert_eq in Hfresh.
      * by rewrite lookup_insert_ne in Hfresh.
Qed.

Lemma extend_name_Raise (items : list (string * string)) (n : TopicName) e :
  NoDup items.*1 →
  extend_name items n = Raise e →
  e = ValueError ScopeKeyCollision ∧
  ∃ k v, (k, v) ∈ items ∧ is_Some (n !! k).
Proof.
  revert n. induction items as [|[k v] items IH]; intros n Hnd; simpl; [done|].
  apply NoDup_cons in Hnd as [Hk Hnd].
  case_bool_decide as Hin.
  - intros [= <-]. split; [done|]. exists k, v. split; [left|done].
  - intros H. destruct (IH _ Hnd H) as (-> & k' & v' & Hin' & Hsome).
    split; [done|]. exists k', v'. split; [by right|].
    rewrite lookup_insert_ne in Hsome; [done|].
    intros ->. apply Hk. apply list_elem_of_fmap. by exists (k', v').
Qed.

(** The inner loop on the items of a scope: it raises exactly when the
    name contains a key of the scope, and otherwise adds every entry. *)
Lemma extend_name_scope (sc : ScopeValues) (n : TopicName) :
  (name_collides sc n ∧
   extend_name (map_to_list sc) n = Raise (ValueError ScopeKeyCollision)) ∨
  (¬ name_collides sc n ∧ extend_name (map_to_list sc) n = Ok (n ∪ sc)).
Proof.
  destruct (extend_name (map_to_list sc) n) as [n'|e] eqn:H.
  - right. apply extend_name_Ok in H as [-> Hfresh].
    rewrite list_to_map_to_list. split; [|done].
    intros (k & [v Hv] & Hn). apply elem_of_map_to_list in Hv.
    rewrite (Hfresh k v Hv) in Hn. by destruct Hn.
  - left. apply extend_name_Raise in H as (-> & k & v & Hin & Hn);
      [|apply NoDup_fst_map_to_list].
    split; [|done]. exists k. split; [|done].
    apply elem_of_map_to_list in Hin. by exists v.
Qed.

Lemma adjust_job_cases (sc : ScopeValues) (l : loc) (h : job_store) :
  (name_collides sc (name (h !!! l)) ∧
   adjust_job sc l h = (Raise (ValueError ScopeKeyCollision), h)) ∨
  (¬ name_collides sc (name (h !!! l)) ∧
   ∃ job', expanded_job sc (h !!! l) job' ∧
           adjust_job sc l h = (Ok tt, <[l := job']> h)).
Proof.
  unfold adjust_job.
  destruct (extend_name_scope sc (name (h !!! l))) as [[Hc ->]|[Hc ->]].
  - by left.
  - right. split; [done|]. eexists. split; [|reflexivity]. by repeat split.
Qed.

Lemma expanded_job_twice sc a b c :
  expanded_job sc a b → expanded_job sc b c → expanded_job sc a c.
Proof.
  intros (Hn & Hs & Hf & Ht & Hp & Ha) (Hn' & Hs' & Hf' & Ht' & Hp' & Ha').
  repeat split; try congruence.
  by rewrite Hn', Hn, <- (assoc_L (∪)), (idemp_L (∪)).
Qed.

(** Whatever the outcome, the loop leaves every job of the store as it was
    or expanded. *)
Lemma adjust_jobs_frame sc jobs h r h' :
  adjust_jobs sc jobs h = (r, h') →
  ∀ l, h' !!! l = h !!! l ∨ expanded_job sc (h !!! l) (h' !!! l).
Proof.
  revert h. induction jobs as [|l0 jobs IH]; intros h; simpl.
  - intros [= <- <-] l. by left.
  - unfold bind.
    destruct (adjust_job_cases sc l0 h) as [[_ ->]|(_ & j' & Hexp & ->)].
    + intros [= <- <-] l. by left.
    + intros H l. destruct (IH _ H l) as [Heq|Hexp'].
      * rewrite Heq. destruct (decide (l0 = l)) as [->|Hne].
        -- right. by rewrite lookup_total_insert_eq.
        -- left. by rewrite lookup_total_insert_ne.
      * destruct (decide (l0 = l)) as [->|Hne].
        -- right. rewrite lookup_total_insert_eq in Hexp'.
           by apply (expanded_job_twice sc _ j').
        -- right. by rewrite lookup_total_insert_ne in Hexp'.
Qed.

(** How far the outer loop gets: the jobs before position [n] are
    expanded; either [n] is the end of the sequence and the loop returns, or
    the job at [n] has a name that contains a scope key and the loop raises
    [ScopeKeyCollision]. *)
Lemma adjust_jobs_progress sc jobs h r h' :
  adjust_jobs sc jobs h = (r, h') →
  ∃ n,
    (∀ j lj, (j < n)%nat → jobs !! j = Some lj →
             expanded_job sc (h !!! lj) (h' !!! lj)) ∧
    match r with
    | Ok _ => n = length jobs
    | Raise e =>
        e = ValueError ScopeKeyCollision ∧
        ∃ l, jobs !! n = Some l ∧ name_collides sc (name (h' !!! l))
    end.
Proof.
  revert h. induction jobs as [|l0 jobs IH]; intros h; simpl.
  - intros [= <- <-]. exists 0%nat. split; [|done]. intros j lj Hj. lia.
  - unfold bind.
    destruct (adjust_job_cases sc l0 h) as [[Hc ->]|(_ & j' & Hexp & ->)].
    + intros [= <- <-]. exists 0%nat. split; [intros j lj Hj; lia|].
      split; [done|]. by exists l0.
    + intros H. destruct (IH _ H) as (n & Hbefore & Hr).
      exists (S n). split; [|destruct r; [simpl; by rewrite Hr|exact Hr]].
      assert (∀ l, expanded_job sc (<[l0 := j']> h !!! l) (h' !!! l) →
                   expanded_job sc (h !!! l) (h' !!! l)) as Hback.
      { intros l Hl. destruct (decide (l0 = l)) as [->|Hne].
        - rewrite lookup_total_insert_eq in Hl.
          by apply (expanded_job_twice sc _ j').
        - by rewrite lookup_total_insert_ne in Hl. }
      intros [|j] lj Hj Hlj; simpl in Hlj.
      * injection Hlj as <-.
        destruct (adjust_jobs_frame _ _ _ _ _ H l0) as [Heq|Hexp'].
        -- rewrite Heq, lookup_total_insert_eq. exact Hexp.
        -- by apply Hback.
      * apply Hback, (Hbefore j); [lia|done].
Qed.

Lemma scope_payloads_absent (values : list (option (Event TopicName))) :
  None ∈ values → scope_payloads values = Raise AttributeError.
Proof.
  induction values as [|[e|] values IH]; simpl.
  - intros H. by apply not_elem_of_nil in H.
  - intros [[=]|H]%elem_of_cons. by rewrite (IH H).
  - done.
Qed.

Lemma scope_payloads_present (events : list (Event TopicName)) :
  scope_payloads (Some <$> events) = Ok (scope_values_of events).
Proof.
  induction events as [|e events IH]; [done|]. rewrite fmap_cons. cbn [scope_payloads].
  rewrite IH. unfold scope_values_of. simpl. by destruct (payload e).
Qed.

(** On a mapping whose events are all present the wrapper does what C6
    says: it raises [ScopeArityMismatch] unless exactly one payload is a
    [ScopeValues], and otherwise calls the function and runs the loop that
    [adjust_jobs_progress] describes. *)
Lemma add_scope_jobs_all_present (func : ScopeValues → M job_store (list loc))
    (events : gmap TopicName (option (Event TopicName)))
    (present : list (Event TopicName)) (h : job_store) :
  (map_to_list events).*2 = Some <$> present →
  add_scope_jobs_decorator func events h
  = match scope_values_of present with
    | [sc] =>
        (do jobs_to_add <- func sc;
         do _ <- adjust_jobs sc jobs_to_add;
         ret jobs_to_add)%act h
    | _ => (Raise (ValueError ScopeArityMismatch), h)
    end.
Proof.
  intros Hpresent. unfold add_scope_jobs_decorator, bind at 1, lift.
  rewrite Hpresent, scope_payloads_present.
  by destruct (scope_values_of present) as [|sc [|sc' rest]].
Qed.

(** C6 fails on the code for a mapping with an absent event. The wrapper
    is handed the latest events of two topics, of which one is the
    instantiated scope and the other has no event yet, so exactly one
    delivered payload is a [ScopeValues]. Whatever the wrapped function, the
    wrapper raises [AttributeError] before it counts the scopes, and the
    function is not called. *)
Theorem add_scope_jobs_absent_event
    (func : ScopeValues → M job_store (list loc)) (h : job_store) :
  scope_values_of (omap id (map_to_list Examples.delivered_with_gap).*2)
  = [Examples.date_scope] ∧
  add_scope_jobs_decorator func Examples.delivered_with_gap h
  = (Raise AttributeError, h).
Proof.
  split.
  - vm_compute. reflexivity.
  - unfold add_scope_jobs_decorator, bind, lift.
    rewrite scope_payloads_absent; [done|].
    apply list_elem_of_fmap. exists (Examples.topic "upstream", None).
    split; [done|]. by apply elem_of_map_to_list.
Qed.



(** In that run the first job, at location 0, has been renamed and the
    failing job, at location 1, has not. *)
Example scope_collision_first_job_renamed :
  let '(r, h') :=
    add_scope_jobs_decorator Examples.make_colliding_jobs Examples.delivered ∅ in
  r = Raise (ValueError ScopeKeyCollision) ∧
  name (h' !!! 0%nat) = {[ "base" := "j1"; "date" := "2024-01-01" ]} ∧
  scope (h' !!! 0%nat) = Examples.date_scope ∧
  name (h' !!! 1%nat) = {[ "base" := "j2"; "date" := "today" ]}.
Proof. vm_compute. repeat split. Qed.

(** ** The scheduler: adding jobs *)

Section scheduler_add_job.
Context {Trigger Action : Type}.
Implicit Types (self : Scheduler.t Trigger Action)
  (job : Scheduler.Job Trigger Action).

(** C9. For a job whose name is already in the registry, [add_job] raises
    [DuplicateJobName] and leaves the scheduler (registry, pending-bind
    queue and event log) as it was. For a job with a fresh name it stores
    the job under its name, puts it at the end of the pending-bind queue
    and appends exactly one event, [(job.name, JobPayload(None,
    "WAITING"))], to the log. *)
Theorem add_job_spec job self :
  (is_Some (Scheduler._jobs self !! Scheduler.name job) →
   Scheduler.add_job job self = (Raise (ValueError DuplicateJobName), self)) ∧
  (Scheduler._jobs self !! Scheduler.name job = None →
   ∃ self' t,
     Scheduler.add_job job self = (Ok tt, self') ∧
     Scheduler._jobs self'
     = <[Scheduler.name job := job]> (Scheduler._jobs self) ∧
     Scheduler._create_job_subscriptions_queue self'
     = Scheduler._create_job_subscriptions_queue self ++ [job] ∧
     log_events (Scheduler._event_log self')
     = log_events (Scheduler._event_log self)
         ++ [mkEvent (Scheduler.name job) t (PJob (JobPayload2 None WAITING))] ∧
     log_subscribers (Scheduler._event_log self')
     = log_subscribers (Scheduler._event_log self) ∧
     Scheduler.frames self' = Scheduler.frames self).
Proof.
  unfold Scheduler.add_job. split.
  - intros Hdup. by rewrite bool_decide_eq_true_2.
  - intros Hfresh. rewrite bool_decide_eq_false_2.
    + eexists _, _. by repeat split.
    + rewrite Hfresh. by intros [? ?].
Qed.
End scheduler_add_job.

Lemma add_job_spec_witness :
  Scheduler.add_job SchedulerExamples.job_B1 SchedulerExamples.loaded
  = (Raise (ValueError DuplicateJobName), SchedulerExamples.loaded).
Proof.
  apply (add_job_spec SchedulerExamples.job_B1 SchedulerExamples.loaded).
  vm_compute. by eexists.
Defined.

Example add_job_fresh :
  log_events (Scheduler._event_log SchedulerExamples.loaded)
  = [mkEvent "B1" 1 (PJob (JobPayload2 None WAITING));
     mkEvent "B2" 2 (PJob (JobPayload2 None WAITING))] ∧
  Scheduler._create_job_subscriptions_queue SchedulerExamples.loaded
  = [SchedulerExamples.job_B1; SchedulerExamples.job_B2].
Proof. split; reflexivity. Qed.

(** ** The scheduler: what a subscriber is bound to *)

Section scheduler_subscriptions.
Context {Trigger Action : Type}.
Variable topic_names_to_subscribe : Trigger → list string.
Implicit Types (self : Scheduler.t Trigger Action)
  (job : Scheduler.Job Trigger Action)
  (fr : Scheduler.Frame Trigger Action).

Local Abbreviation bind_trigger_actions :=
  (Scheduler.bind_trigger_actions topic_names_to_subscribe).
Local Abbreviation bind_jobs :=
  (Scheduler.bind_jobs topic_names_to_subscribe).

Local Abbreviation subscription_of :=
  (subscription_of topic_names_to_subscribe).

Lemma last_map {A B} (g : A → B) (l : list A) :
  last (map g l) = g <$> last l.
Proof.
  induction l as [|x l IH]; [done|].
  simpl map. rewrite !last_cons, IH. by destruct (last l).
Qed.

Lemma bind_trigger_actions_spec f tas self :
  let self' := bind_trigger_actions f tas self in
  Scheduler.frames self' !! f
  = (λ fr, match last tas with
           | Some ta =>
               Scheduler.mkFrame (Scheduler.cell_job fr)
                 (Some ta.1) (Some ta.2)
           | None => fr
           end) <$> Scheduler.frames self !! f ∧
  log_subscribers (Scheduler._event_log self')
  = log_subscribers (Scheduler._event_log self)
      ++ map (subscription_of f) tas ∧
  log_events (Scheduler._event_log self')
  = log_events (Scheduler._event_log self) ∧
  Scheduler._jobs self' = Scheduler._jobs self.
Proof.
  revert self. induction tas as [|[trigger action] tas IH]; intros self.
  - simpl. rewrite app_nil_r. repeat split. by destruct (_ !! f).
  - simpl. destruct (IH
      (Scheduler.mk
         (subscribe (topic_names_to_subscribe trigger)
            (Scheduler.mkSubscriber f) (Scheduler._event_log self))
         (Scheduler._jobs self)
         (Scheduler._create_job_subscriptions_queue self)
         (alter (λ fr, Scheduler.mkFrame (Scheduler.cell_job fr)
                         (Some trigger) (Some action))
                f (Scheduler.frames self)))) as (Hf & Hs & He & Hj).
    simpl in *. rewrite Hf, Hs, He, Hj. repeat split.
    + rewrite list_lookup_alter_eq, last_cons.
      destruct (Scheduler.frames self !! f) as [fr|]; [|done]. simpl.
      by destruct (last tas) as [[t a]|].
    + by rewrite <- app_assoc.
Qed.

Lemma bind_jobs_spec f queue self :
  let self' := bind_jobs f queue self in
  Scheduler.frames self' !! f
  = final_frame queue <$> Scheduler.frames self !! f ∧
  log_subscribers (Scheduler._event_log self')
  = log_subscribers (Scheduler._event_log self)
      ++ map (λ b, subscription_of f (b.1.2, b.2))
           (flat_map (λ job, map (λ ta, (job, ta.1, ta.2))
                                 (Scheduler.trigger_actions job)) queue) ∧
  log_events (Scheduler._event_log self')
  = log_events (Scheduler._event_log self) ∧
  Scheduler._jobs self' = Scheduler._jobs self.
Proof.
  revert self. induction queue as [|job queue IH]; intros self.
  - simpl. rewrite app_nil_r. repeat split.
    destruct (_ !! f) as [[? ? ?]|]; done.
  - simpl.
    set (self1 := Scheduler.mk (Scheduler._event_log self)
                    (Scheduler._jobs self)
                    (Scheduler._create_job_subscriptions_queue self)
                    (alter (λ fr, Scheduler.mkFrame (Some job)
                                    (Scheduler.cell_trigger fr)
                                    (Scheduler.cell_action fr))
                           f (Scheduler.frames self))).
    destruct (bind_trigger_actions_spec f (Scheduler.trigger_actions job)
                self1) as (Hf1 & Hs1 & He1 & Hj1).
    destruct (IH (bind_trigger_actions f (Scheduler.trigger_actions job)
                    self1)) as (Hf & Hs & He & Hj).
    simpl in *. rewrite Hf, Hs, He, Hj, Hf1, Hs1, He1, Hj1. repeat split.
    + subst self1. simpl. rewrite list_lookup_alter_eq.
      destruct (Scheduler.frames self !! f) as [fr|]; [|done]. simpl.
      f_equal. unfold final_frame. simpl. rewrite last_cons, last_app.
      rewrite (last_map (λ ta : Trigger * Action, (job, ta.1, ta.2))).
      destruct (last queue); destruct (last (flat_map _ queue));
        destruct (last (Scheduler.trigger_actions job)) as [[? ?]|]; done.
    + rewrite map_app, map_map, <- app_assoc. done.
Qed.

(** What [create_job_subscriptions] does. It subscribes one subscriber
    per pending binding, in loop order, each on the topics of its own
    binding's trigger. All of them refer to the one frame of the call, so
    once the call has returned each of them is bound to the job of the
    last round of the outer loop and to the trigger and action of the last
    round of the inner loop. *)
Lemma create_job_subscriptions_late_binding self :
  let after :=
    Scheduler.create_job_subscriptions topic_names_to_subscribe self in
  let f := length (Scheduler.frames self) in
  Scheduler.new_subscriptions self after
  = map (λ b, subscription_of f (b.1.2, b.2))
        (Scheduler.pending_bindings self) ∧
  Scheduler._create_job_subscriptions_queue after = [] ∧
  ∀ topics s,
    (topics, s) ∈ Scheduler.new_subscriptions self after →
    ∃ last_job last_binding,
      last (Scheduler._create_job_subscriptions_queue self) = Some last_job ∧
      last (Scheduler.pending_bindings self) = Some last_binding ∧
      Scheduler.subscriber_binding after s
      = Some (last_job, last_binding.1.2, last_binding.2).
Proof.
  intros after f.
  destruct (bind_jobs_spec f (Scheduler._create_job_subscriptions_queue self)
              (Scheduler.mk (Scheduler._event_log self)
                 (Scheduler._jobs self)
                 (Scheduler._create_job_subscriptions_queue self)
                 (Scheduler.frames self
                    ++ [Scheduler.mkFrame None None None])))
    as (Hf & Hs & He & Hj).
  simpl in Hf, Hs.
  assert (Scheduler.new_subscriptions self after
          = map (λ b, subscription_of f (b.1.2, b.2))
                (Scheduler.pending_bindings self)) as Hnew.
  { unfold Scheduler.new_subscriptions, after,
      Scheduler.create_job_subscriptions. simpl.
    fold f. rewrite Hs. by rewrite drop_app_length. }
  split; [exact Hnew|]. split; [reflexivity|].
  intros topics s Hin. rewrite Hnew in Hin.
  apply list_elem_of_fmap in Hin as ([[j t] a] & [= -> ->] & Hb).
  destruct (last (Scheduler.pending_bindings self)) as [lb|] eqn:Hlb.
  2: { apply last_None in Hlb. rewrite Hlb in Hb.
       by apply not_elem_of_nil in Hb. }
  destruct (last (Scheduler._create_job_subscriptions_queue self))
    as [lj|] eqn:Hlj.
  2: { apply last_None in Hlj. unfold Scheduler.pending_bindings in Hb.
       rewrite Hlj in Hb. by apply not_elem_of_nil in Hb. }
  exists lj, lb. split; [done|]. split; [done|].
  unfold Scheduler.subscriber_binding, after,
    Scheduler.create_job_subscriptions. simpl. fold f. rewrite Hf.
  rewrite lookup_app_r by (unfold f; lia).
  replace (f - length (Scheduler.frames self))%nat with 0%nat
    by (unfold f; lia).
  simpl. unfold final_frame. simpl.
  unfold Scheduler.pending_bindings in Hlb. by rewrite Hlj, Hlb.
Qed.
End scheduler_subscriptions.

(** C2 fails on the code. Jobs [B1] and [B2] are loaded, [B1] to run on
    events of topic [A1] and [B2] on events of [A2]. The subscriber
    registered for the first binding, on the topics of [B1]'s trigger, is
    bound to the job, trigger and action of the last loop round: woken by an
    event on [A1], it evaluates [B2]'s trigger, which is not active, and
    appends nothing, so [B1] is not run. *)
Theorem subscribers_share_last_binding :
  let s1 := Scheduler.mkSubscriber 0 in
  Scheduler.pending_bindings SchedulerExamples.loaded
  = [(SchedulerExamples.job_B1, "A1", "run-B1");
     (SchedulerExamples.job_B2, "A2", "run-B2")] ∧
  Scheduler.new_subscriptions SchedulerExamples.loaded SchedulerExamples.bound
  = [(["A1"], s1); (["A2"], Scheduler.mkSubscriber 0)] ∧
  Scheduler.subscriber_binding SchedulerExamples.bound s1
  = Some (SchedulerExamples.job_B2, "A2", "run-B2") ∧
  Scheduler.call_subscriber SchedulerExamples.topic_names_to_subscribe
    SchedulerExamples.is_active SchedulerExamples.action_execute
    s1 0 3 SchedulerExamples.after_A1
  = (Ok tt, SchedulerExamples.after_A1).
Proof. vm_compute. repeat split. Qed.

(** * Further properties *)

(** ** Override application as a whole *)

Lemma apply_overrides_rules (ro : JobRunOverrides) (jrf : JobRunnerFunction)
    (σ : env_store) :
  _apply_job_run_overrides (Some ro) jrf σ
  = match function_args_rule ro jrf with
    | Raise e => (Raise e, σ)
    | Ok jrf1 =>
        match context_variables_rule ro jrf1 with
        | Raise e => (Raise e, σ)
        | Ok jrf2 =>
            if truthy_str (meadowdb_userspace ro)
            then
              match jrf2 with
              | JRLocal _ => (Raise (ValueError OverrideNotApplicable), σ)
              | _ => set_userspace (default "" (meadowdb_userspace ro)) jrf2 σ
              end
            else (Ok jrf2, σ)
        end
    end.
Proof.
  unfold _apply_job_run_overrides, function_args_rule, context_variables_rule.
  destruct (_ || _), (truthy_dict (ro_context_variables ro)),
    (truthy_str (meadowdb_userspace ro)), jrf; reflexivity.
Qed.

Lemma first_rules_Ok ro jrf jrf1 jrf2 :
  function_args_rule ro jrf = Ok jrf1 →
  context_variables_rule ro jrf1 = Ok jrf2 →
  variant_of jrf2 = variant_of jrf ∧ callee jrf2 = callee jrf ∧
  environment_variables jrf2 = environment_variables jrf ∧
  function_args_rule ro jrf2 = Ok jrf2 ∧
  context_variables_rule ro jrf2 = Ok jrf2.
Proof.
  unfold function_args_rule, context_variables_rule.
  destruct (_ || _) eqn:Hargs,
    (truthy_dict (ro_context_variables ro)) eqn:Hctx, jrf as [f|c|f];
    intros [= <-] [= <-]; rewrite ?Hargs, ?Hctx; repeat split; simpl.
  - f_equal. f_equal. unfold replace_local. simpl.
    by destruct (truthy_list _), (truthy_dict _).
  - f_equal. f_equal. f_equal. unfold replace_meadowrun. simpl.
    by destruct (truthy_list _), (truthy_dict _).
Qed.

Lemma rule_raises ro jrf e :
  function_args_rule ro jrf = Raise e ∨ context_variables_rule ro jrf = Raise e →
  e = ValueError OverrideNotApplicable.
Proof.
  unfold function_args_rule, context_variables_rule.
  destruct (_ || _), (truthy_dict (ro_context_variables ro)), jrf;
    intros [[=]|[=]]; done.
Qed.

Lemma set_userspace_in_place (u : string) (jrf : JobRunnerFunction)
    (σ : env_store) (l : loc) :
  environment_variables jrf = Some l →
  σ !!! l ≠ ∅ →
  set_userspace u jrf σ
  = (Ok jrf, <[l := <[MEADOWDB_DEFAULT_USERSPACE := u]> (σ !!! l)]> σ).
Proof.
  intros Henv Hne. unfold set_userspace, bind, get, ret, update_dict. simpl.
  rewrite Henv. by rewrite bool_decide_eq_true_2.
Qed.

Lemma set_userspace_fresh (u : string) (jrf : JobRunnerFunction)
    (σ : env_store) :
  env_of σ (environment_variables jrf) = ∅ →
  set_userspace u jrf σ
  = (Ok (replace_environment_variables jrf (fresh (dom σ))),
     <[fresh (dom σ) := {[MEADOWDB_DEFAULT_USERSPACE := u]}]> σ).
Proof.
  intros Hempty. unfold set_userspace, bind, get, ret, alloc_dict. simpl.
  destruct (environment_variables jrf) as [l|]; [|done].
  simpl in Hempty. by rewrite bool_decide_eq_false_2 by (by intros ?).
Qed.

Lemma insert_userspace_nonempty (u : string) (d : gmap string string) :
  <[MEADOWDB_DEFAULT_USERSPACE := u]> d ≠ ∅.
Proof.
  intros Hempty.
  apply (f_equal (λ m, m !! MEADOWDB_DEFAULT_USERSPACE)) in Hempty.
  by rewrite lookup_insert_eq, lookup_empty in Hempty.
Qed.

(** What the userspace rule does to a function and to the store. *)
Lemma set_userspace_spec (u : string) (jrf : JobRunnerFunction) (σ : env_store) :
  ∃ jrf' σ',
    set_userspace u jrf σ = (Ok jrf', σ') ∧
    variant_of jrf' = variant_of jrf ∧ callee jrf' = callee jrf ∧
    dom σ ⊆ dom σ' ∧
    (∀ l, environment_variables jrf ≠ Some l → l ∈ dom σ →
          σ' !! l = σ !! l) ∧
    ((∀ f, jrf ≠ JRLocal f) → set_userspace u jrf' σ' = (Ok jrf', σ')).
Proof.
  destruct (decide (env_of σ (environment_variables jrf) = ∅)) as [Hempty|Hne].
  - rewrite (set_userspace_fresh u jrf σ Hempty).
    set (l' := fresh (dom σ)).
    assert (l' ∉ dom σ) as Hfresh by apply is_fresh.
    eexists _, _. split; [reflexivity|].
    split; [by destruct jrf|]. split; [by destruct jrf|].
    split; [rewrite dom_insert; set_solver|]. split.
    + intros l _ Hl. apply lookup_insert_ne. by intros ->.
    + intros Hremote.
      rewrite (set_userspace_in_place u _ _ l').
      * by rewrite lookup_total_insert_eq, insert_singleton_eq,
          insert_insert_eq.
      * destruct jrf as [f| |]; [by destruct (Hremote f)|done|done].
      * rewrite lookup_total_insert_eq, <- insert_empty.
        apply insert_userspace_nonempty.
  - destruct (environment_variables jrf) as [l0|] eqn:Henv; [|done].
    simpl in Hne. rewrite (set_userspace_in_place u jrf σ l0 Henv Hne).
    eexists _, _. split; [reflexivity|]. split; [done|]. split; [done|].
    split; [rewrite dom_insert; set_solver|]. split.
    + intros l Hl _. apply lookup_insert_ne. congruence.
    + intros _. rewrite (set_userspace_in_place u jrf _ l0 Henv).
      * by rewrite lookup_total_insert_eq, !insert_insert_eq.
      * rewrite lookup_total_insert_eq. apply insert_userspace_nonempty.
Qed.

(** X1. Override application fails in one way only and without side
    effect: whatever it raises is [OverrideNotApplicable], and the store of
    environment-variable dicts is then as it was. *)
Theorem apply_overrides_failure_atomic (run_overrides : option JobRunOverrides)
    (jrf : JobRunnerFunction) (σ σ' : env_store) (e : exn) :
  _apply_job_run_overrides run_overrides jrf σ = (Raise e, σ') →
  e = ValueError OverrideNotApplicable ∧ σ' = σ.
Proof.
  destruct run_overrides as [ro|]; [|by intros [=]].
  rewrite apply_overrides_rules.
  destruct (function_args_rule ro jrf) as [jrf1|e1] eqn:H1.
  2: { intros [= <- <-]. split; [|done]. apply (rule_raises ro jrf). by left. }
  destruct (context_variables_rule ro jrf1) as [jrf2|e2] eqn:H2.
  2: { intros [= <- <-]. split; [|done]. apply (rule_raises ro jrf1). by right. }
  destruct (truthy_str (meadowdb_userspace ro)); [|by intros [=]].
  destruct (set_userspace_spec (default "" (meadowdb_userspace ro)) jrf2 σ)
    as (j & s & Hset & _).
  destruct jrf2; [by intros [= <- <-]| |]; rewrite Hset; by intros [=].
Qed.

Lemma apply_overrides_failure_atomic_witness :
  ValueError OverrideNotApplicable = ValueError OverrideNotApplicable ∧
  Examples.path_store = Examples.path_store.
Proof.
  apply (apply_overrides_failure_atomic
           (Some (mkJobRunOverrides (Some ["x"]) None None (Some "prod")))
           Examples.deployed_command Examples.path_store Examples.path_store
           (ValueError OverrideNotApplicable)).
  reflexivity.
Defined.

(** X2. Override application never turns a runner function into one of
    another variant, and never changes what it calls: the function pointer,
    the command line, or the name of the deployed function. *)
Theorem apply_overrides_keeps_callee (run_overrides : option JobRunOverrides)
    (jrf jrf' : JobRunnerFunction) (σ σ' : env_store) :
  _apply_job_run_overrides run_overrides jrf σ = (Ok jrf', σ') →
  variant_of jrf' = variant_of jrf ∧ callee jrf' = callee jrf.
Proof.
  destruct run_overrides as [ro|]; [|by intros [= <- <-]].
  rewrite apply_overrides_rules.
  destruct (function_args_rule ro jrf) as [jrf1|e1] eqn:H1; [|by intros [=]].
  destruct (context_variables_rule ro jrf1) as [jrf2|e2] eqn:H2;
    [|by intros [=]].
  destruct (first_rules_Ok _ _ _ _ H1 H2) as (Hv & Hc & _).
  destruct (truthy_str (meadowdb_userspace ro)); [|by intros [= <- <-]].
  destruct (set_userspace_spec (default "" (meadowdb_userspace ro)) jrf2 σ)
    as (j & s & Hset & Hv' & Hc' & _).
  destruct jrf2; [by intros [=]| |]; rewrite Hset; intros [= <- <-];
    split; congruence.
Qed.

Lemma apply_overrides_keeps_callee_witness :
  ∃ jrf',
    variant_of jrf' = DeployedCommand ∧ callee jrf' = ["run.sh"].
Proof.
  eexists.
  apply (apply_overrides_keeps_callee
           (Some (Examples.userspace_override "prod"))
           Examples.deployed_command _ Examples.path_store
           (_apply_job_run_overrides
              (Some (Examples.userspace_override "prod"))
              Examples.deployed_command Examples.path_store).2).
  vm_compute. reflexivity.
Defined.

(** X3. Override application removes no dict from the store and changes
    no dict of the store other than the one the runner function it is given
    refers to; without a userspace name in the overrides it changes none at
    all. *)
Theorem apply_overrides_store_frame (run_overrides : option JobRunOverrides)
    (jrf : JobRunnerFunction) (σ σ' : env_store)
    (r : result JobRunnerFunction) :
  _apply_job_run_overrides run_overrides jrf σ = (r, σ') →
  dom σ ⊆ dom σ' ∧
  (∀ l, environment_variables jrf ≠ Some l → l ∈ dom σ → σ' !! l = σ !! l) ∧
  (carries_userspace run_overrides = false → σ' = σ).
Proof.
  destruct r as [jrf'|e].
  2: { intros [_ ->]%apply_overrides_failure_atomic. done. }
  destruct run_overrides as [ro|]; [|by intros [= <- <-]].
  rewrite apply_overrides_rules. simpl.
  destruct (function_args_rule ro jrf) as [jrf1|e1] eqn:H1; [|by intros [=]].
  destruct (context_variables_rule ro jrf1) as [jrf2|e2] eqn:H2;
    [|by intros [=]].
  destruct (first_rules_Ok _ _ _ _ H1 H2) as (_ & _ & Henv & _).
  destruct (truthy_str (meadowdb_userspace ro)); [|by intros [= <- <-]].
  destruct (set_userspace_spec (default "" (meadowdb_userspace ro)) jrf2 σ)
    as (j & s & Hset & _ & _ & Hdom & Hframe & _).
  rewrite Henv in Hframe.
  destruct jrf2; [by intros [=]| |]; rewrite Hset; by intros [= <- <-].
Qed.

Lemma apply_overrides_store_frame_witness :
  dom Examples.path_store
  ⊆ dom (_apply_job_run_overrides (Some (Examples.userspace_override "prod"))
           Examples.deployed_command Examples.path_store).2.
Proof.
  apply (apply_overrides_store_frame
           (Some (Examples.userspace_override "prod"))
           Examples.deployed_command Examples.path_store
           (_apply_job_run_overrides (Some (Examples.userspace_override "prod"))
              Examples.deployed_command Examples.path_store).2
           (_apply_job_run_overrides (Some (Examples.userspace_override "prod"))
              Examples.deployed_command Examples.path_store).1).
  vm_compute. reflexivity.
Defined.

Lemma rules_replace_environment_variables ro jrf l :
  function_args_rule ro jrf = Ok jrf →
  context_variables_rule ro jrf = Ok jrf →
  function_args_rule ro (replace_environment_variables jrf l)
  = Ok (replace_environment_variables jrf l) ∧
  context_variables_rule ro (replace_environment_variables jrf l)
  = Ok (replace_environment_variables jrf l).
Proof.
  unfold function_args_rule, context_variables_rule.
  destruct (_ || _), (truthy_dict (ro_context_variables ro)),
    jrf as [f|[cl cv ce]|[mf ev]]; simpl; intros H1 H2;
    split; congruence.
Qed.

(** X4. Override application is idempotent: applying the same overrides
    to the function and store it returned gives that function and that store
    again. *)
Theorem apply_overrides_idempotent (run_overrides : option JobRunOverrides)
    (jrf jrf1 : JobRunnerFunction) (σ σ1 : env_store) :
  _apply_job_run_overrides run_overrides jrf σ = (Ok jrf1, σ1) →
  _apply_job_run_overrides run_overrides jrf1 σ1 = (Ok jrf1, σ1).
Proof.
  destruct run_overrides as [ro|]; [|by intros [= <- <-]].
  rewrite !apply_overrides_rules.
  destruct (function_args_rule ro jrf) as [j1|e1] eqn:H1; [|by intros [=]].
  destruct (context_variables_rule ro j1) as [j2|e2] eqn:H2; [|by intros [=]].
  destruct (first_rules_Ok _ _ _ _ H1 H2) as (_ & _ & _ & Hargs & Hctx).
  destruct (truthy_str (meadowdb_userspace ro)) eqn:Hus.
  - set (u := default "" (meadowdb_userspace ro)).
    destruct (set_userspace_spec u j2 σ)
      as (j & s & Hset & Hv & Hc & _ & _ & Hagain).
    assert (function_args_rule ro j = Ok j ∧ context_variables_rule ro j = Ok j)
      as [Hargs' Hctx'].
    { revert Hset.
      unfold set_userspace, bind, get, ret, update_dict, alloc_dict. simpl.
      destruct (environment_variables j2) as [l|]; [case_bool_decide|];
        intros [= <- _]; try done.
      all: by apply rules_replace_environment_variables. }
    destruct j2 as [f|c|f]; [by intros [=]| |]; rewrite Hset;
      intros [= <- <-]; rewrite Hargs', Hctx'.
    + destruct j; try done. all: by rewrite Hagain.
    + destruct j; try done. all: by rewrite Hagain.
  - intros [= <- <-]. by rewrite Hargs, Hctx.
Qed.

Lemma apply_overrides_idempotent_witness :
  let '(r, σ1) :=
    _apply_job_run_overrides (Some (Examples.userspace_override "prod"))
      Examples.deployed_command Examples.path_store in
  ∀ jrf1, r = Ok jrf1 →
    _apply_job_run_overrides (Some (Examples.userspace_override "prod"))
      jrf1 σ1 = (Ok jrf1, σ1).
Proof.
  destruct (_apply_job_run_overrides _ _ _) as [r σ1] eqn:H.
  intros jrf1 ->.
  exact (apply_overrides_idempotent _ _ _ _ _ H).
Defined.

(** ** What [Run.execute] does to the log and to the dicts *)

Lemma elem_of_compatible_job_runners job jrf runners jr :
  jr ∈ compatible_job_runners job jrf runners →
  jr ∈ runners ∧ can_run_function jr jrf = true ∧
  ∀ p, job_runner_predicate job = Some p → predicate_apply p jr = true.
Proof.
  unfold compatible_job_runners.
  intros [Hcan Hin]%list_elem_of_filter.
  destruct (job_runner_predicate job) as [p|].
  - apply list_elem_of_filter in Hin as [Hp Hin].
    split; [done|]. split; [done|]. by intros p' [= <-].
  - split; [done|]. split; [done|]. by intros p' [=].
Qed.

Section run_effects.
Variable replace_latest_events :
  JobRunnerFunction → Job → EventLog TopicName unit → Z → JobRunnerFunction.

Local Abbreviation execute := (Run.execute replace_latest_events).
Local Abbreviation start_run := (Run.start_run replace_latest_events).

(** A new run, once [execute] has decided to start one: it fails before any
    runner is called, or it calls [run] of one compatible runner, once. *)
Lemma start_run_outcome job run_overrides runners t uuid4 rnd w r w' :
  start_run job run_overrides runners t uuid4 rnd w = (r, w') →
  (∃ e, r = Raise e ∧ e ≠ RunnerError ∧ event_log w' = event_log w) ∨
  (∃ runner f returned,
     runner ∈ compatible_job_runners job f runners ∧
     run runner (name job) uuid4 f (event_log w)
     = (returned, event_log w') ∧
     r = if returned then Ok (Some uuid4) else Raise RunnerError).
Proof.
  unfold Run.start_run, bind, get, lift, ret, raise, on_env_dicts,
    on_event_log, await_run.
  destruct (job_function job) as [f|v|]; simpl.
  3: { intros [= <- <-]. left. by eexists. }
  all: match goal with
       | |- context [_apply_job_run_overrides ?o ?g ?s] =>
           destruct (_apply_job_run_overrides o g s) as [[jrf|e] σ] eqn:Happ
       end; simpl.
  2, 4: intros [= <- <-]; left; exists e; split; [done|];
    apply apply_overrides_failure_atomic in Happ as [-> _]; done.
  all: match goal with
       | |- context [choose_job_runner ?j ?g ?rs ?n] =>
           destruct (choose_job_runner j g rs n) as [jr|e] eqn:Hch
       end; simpl.
  2, 4: intros [= <- <-]; left; exists e; split; [done|];
    apply choose_job_runner_raises in Hch as [-> _]; done.
  all: match goal with
       | |- context [run ?rn ?a ?b ?c ?d] =>
           destruct (run rn a b c d) as [[|] log'] eqn:Hrun
       end; simpl.
  all: intros [= <- <-]; right; eexists jr, _, _; simpl.
  all: split; [|split; [exact Hrun|done]].
  all: revert Hch; unfold choose_job_runner; case_bool_decide; [done|].
  all: destruct (random_choice _ _) as [x|] eqn:Hx; [|done].
  all: intros [= ->]; apply list_elem_of_lookup; eexists; exact Hx.
Qed.

(** X5. [Run.execute] appends no event of its own. Either the log is as
    it was, or the call made exactly one call of [run], of a runner that
    is among those available, passes the job's predicate and accepts the
    function, with the job's name and the drawn request id, on the log as it
    was; that happens only when no run of the job is in flight, and the
    call then returns the drawn id, or raises if [run] raised. Every failure
    that does not come out of [run] leaves the log as it was. *)
Theorem execute_appends_only_through_run job run_overrides runners t uuid4
    rnd w r w' :
  execute job run_overrides runners t uuid4 rnd w = (r, w') →
  (event_log w' = event_log w ∨
   ∃ runner f returned,
     runner ∈ runners ∧ can_run_function runner f = true ∧
     (∀ p, job_runner_predicate job = Some p →
           predicate_apply p runner = true) ∧
     not_in_flight (event_log w) (name job) t ∧
     run runner (name job) uuid4 f (event_log w)
     = (returned, event_log w') ∧
     r = if returned then Ok (Some uuid4) else Raise RunnerError) ∧
  (∀ e, r = Raise e → e ≠ RunnerError → event_log w' = event_log w).
Proof.
  intros Hexec.
  assert (not_in_flight (event_log w) (name job) t →
          start_run job run_overrides runners t uuid4 rnd w = (r, w') →
          (event_log w' = event_log w ∨
           ∃ runner f returned,
             runner ∈ runners ∧ can_run_function runner f = true ∧
             (∀ p, job_runner_predicate job = Some p →
                   predicate_apply p runner = true) ∧
             not_in_flight (event_log w) (name job) t ∧
             run runner (name job) uuid4 f (event_log w)
             = (returned, event_log w') ∧
             r = if returned then Ok (Some uuid4) else Raise RunnerError) ∧
          (∀ e, r = Raise e → e ≠ RunnerError → event_log w' = event_log w))
    as Hstart.
  { intros Hnot Hs.
    destruct (start_run_outcome _ _ _ _ _ _ _ _ _ Hs)
      as [(e & -> & Hne & Hlog)|(runner & f & b & Hin & Hrun & ->)].
    - split; [by left|]. done.
    - apply elem_of_compatible_job_runners in Hin as (Hin & Hcan & Hpred).
      split; [right; by exists runner, f, b|].
      intros e He Hne. destruct b; [done|]. by injection He as <-. }
  revert Hexec. unfold Run.execute, bind, get, lift. simpl.
  destruct (last_event (event_log w) (name job) t) as [ev|] eqn:Hev.
  - destruct (payload ev) as [p| |] eqn:Hp; simpl.
    + case_bool_decide as Hst.
      * intros [= <- <-]. split; [by left|done].
      * apply Hstart. unfold not_in_flight. rewrite Hev. exists p.
        split; [done|]. split; intros Heq; apply Hst; rewrite Heq;
          rewrite !elem_of_cons; auto.
    + intros [= <- <-]. split; [by left|done].
    + intros [= <- <-]. split; [by left|done].
  - apply Hstart. unfold not_in_flight. by rewrite Hev.
Qed.

(** X6. The request id [Run.execute] returns is the id of the run in
    flight, with the world unchanged, or it is the drawn id, which it returns
    only when no run of the job was in flight. *)
Theorem execute_returns_in_flight_or_fresh_id job run_overrides runners t
    uuid4 rnd w rid w' :
  execute job run_overrides runners t uuid4 rnd w = (Ok rid, w') →
  (∃ ev p,
     last_event (event_log w) (name job) t = Some ev ∧
     payload ev = PJob p ∧
     (state p = RUN_REQUESTED ∨ state p = RUNNING) ∧
     rid = request_id p ∧ w' = w) ∨
  (rid = Some uuid4 ∧ not_in_flight (event_log w) (name job) t).
Proof.
  assert (∀ w0, start_run job run_overrides runners t uuid4 rnd w0
                = (Ok rid, w') → rid = Some uuid4) as Hstart.
  { intros w0 Hs.
    destruct (start_run_outcome _ _ _ _ _ _ _ _ _ Hs)
      as [(e & [=] & _)|(runner & f & b & _ & _ & Hr)].
    destruct b; [by injection Hr as ->|done]. }
  unfold Run.execute, bind, get, lift. simpl.
  destruct (last_event (event_log w) (name job) t) as [ev|] eqn:Hev.
  - destruct (payload ev) as [p| |] eqn:Hp; simpl; [|done|done].
    case_bool_decide as Hst.
    + intros [= <- <-]. left. exists ev, p. repeat split; [done|].
      apply elem_of_cons in Hst as [->|Hst]; [by left|].
      apply list_elem_of_singleton in Hst as ->. by right.
    + intros Hs. right. split; [by apply (Hstart w)|].
      unfold not_in_flight. rewrite Hev. exists p.
      split; [done|]. split; intros Heq; apply Hst; rewrite Heq;
          rewrite !elem_of_cons; auto.
  - intros Hs. right. split; [by apply (Hstart w)|].
    unfold not_in_flight. by rewrite Hev.
Qed.

(** X7. With overrides that carry no userspace name, or with none,
    [Run.execute] leaves every environment-variable dict as it was, whatever
    the outcome of the call; the value of the job's function is then what
    it was. *)
Theorem execute_without_userspace_keeps_dicts job run_overrides runners t
    uuid4 rnd w r w' :
  carries_userspace run_overrides = false →
  execute job run_overrides runners t uuid4 rnd w = (r, w') →
  env_dicts w' = env_dicts w ∧
  job_function_value (env_dicts w') job = job_function_value (env_dicts w) job.
Proof.
  intros Hno Hexec.
  assert (env_dicts w' = env_dicts w) as Heq; [|by rewrite Heq].
  assert (start_run job run_overrides runners t uuid4 rnd w = (r, w') →
          env_dicts w' = env_dicts w) as Hstart.
  { unfold Run.start_run, bind, get, lift, ret, raise, on_env_dicts,
      on_event_log, await_run.
    destruct (job_function job) as [f|v|]; simpl; [| |by intros [= <- <-]].
    all: match goal with
         | |- context [_apply_job_run_overrides ?o ?g ?s] =>
             destruct (_apply_job_run_overrides o g s) as [r1 σ] eqn:Happ
         end;
      apply apply_overrides_store_frame in Happ as (_ & _ & Hσ);
      rewrite (Hσ Hno); destruct r1 as [jrf|e]; simpl;
      [|by intros [= <- <-]].
    all: match goal with
         | |- context [choose_job_runner ?j ?g ?rs ?n] =>
             destruct (choose_job_runner j g rs n) as [jr|e]
         end; simpl; [|by intros [= <- <-]].
    all: match goal with
         | |- context [run ?rn ?a ?b ?c ?d] =>
             destruct (run rn a b c d) as [[|] log']
         end; simpl; by intros [= <- <-]. }
  revert Hexec. unfold Run.execute, bind, get, lift. simpl.
  destruct (last_event (event_log w) (name job) t) as [ev|]; [|done].
  destruct (payload_state (payload ev)) as [st|e]; simpl; [|by intros [= <- <-]].
  case_bool_decide; [|done].
  destruct (payload_request_id (payload ev)); by intros [= <- <-].
Qed.

(** X8. A job whose function is neither a runner function nor a versioned
    one is rejected with [BadJobFunction] when no run of it is in flight, and
    the world is left as it was. *)
Theorem execute_bad_job_function job run_overrides runners t uuid4 rnd w :
  job_function job = JFOther →
  not_in_flight (event_log w) (name job) t →
  execute job run_overrides runners t uuid4 rnd w
  = (Raise (ValueError BadJobFunction), w).
Proof.
  intros Hother Hnot.
  assert (start_run job run_overrides runners t uuid4 rnd w
          = (Raise (ValueError BadJobFunction), w)) as Hstart.
  { unfold Run.start_run, bind, raise. by rewrite Hother. }
  unfold Run.execute, bind, get, lift. simpl.
  unfold not_in_flight in Hnot.
  destruct (last_event (event_log w) (name job) t) as [ev|]; [|done].
  destruct Hnot as (p & Hp & Hrr & Hrun). rewrite Hp. simpl.
  rewrite bool_decide_eq_false_2; [done|].
  rewrite !elem_of_cons, elem_of_nil. tauto.
Qed.
End run_effects.

Lemma execute_appends_only_through_run_witness :
  let job := Examples.local_job "A" in
  let w := mkWorld Examples.waiting_log ∅ in
  let c :=
    Run.execute Examples.no_latest_events job None
      [Examples.eager_runner 0] 1 "u1" 0 w in
  (event_log c.2 = event_log w ∨
   ∃ runner f returned,
     runner ∈ [Examples.eager_runner 0] ∧ can_run_function runner f = true ∧
     (∀ p, job_runner_predicate job = Some p →
           predicate_apply p runner = true) ∧
     not_in_flight (event_log w) (name job) 1 ∧
     run runner (name job) "u1" f (event_log w)
     = (returned, event_log c.2) ∧
     c.1 = if returned then Ok (Some "u1") else Raise RunnerError) ∧
  (∀ e, c.1 = Raise e → e ≠ RunnerError → event_log c.2 = event_log w).
Proof.
  intros job w c.
  apply (execute_appends_only_through_run Examples.no_latest_events
           job None [Examples.eager_runner 0] 1 "u1" 0 w c.1 c.2).
  vm_compute. reflexivity.
Defined.

Lemma execute_returns_in_flight_or_fresh_id_witness :
  (∃ ev p,
     last_event Examples.waiting_log (Examples.topic "A") 1 = Some ev ∧
     payload ev = PJob p ∧
     (state p = RUN_REQUESTED ∨ state p = RUNNING) ∧
     Some "u1" = request_id p ∧
     (Run.execute Examples.no_latest_events (Examples.local_job "A") None
        [Examples.eager_runner 0] 1 "u1" 0
        (mkWorld Examples.waiting_log ∅)).2
     = mkWorld Examples.waiting_log ∅) ∨
  (Some "u1" = Some "u1" ∧
   not_in_flight Examples.waiting_log (Examples.topic "A") 1).
Proof.
  apply (execute_returns_in_flight_or_fresh_id Examples.no_latest_events
           (Examples.local_job "A") None [Examples.eager_runner 0] 1 "u1" 0
           (mkWorld Examples.waiting_log ∅)).
  vm_compute. reflexivity.
Defined.

Lemma execute_without_userspace_keeps_dicts_witness :
  let c :=
    Run.execute Examples.no_latest_events (Examples.command_job "A")
      (Some (mkJobRunOverrides None None (Some {[ "k" := "v" ]}) None))
      [Examples.eager_runner 0] 1 "u1" 0
      (mkWorld Examples.waiting_log Examples.path_store) in
  env_dicts c.2 = Examples.path_store ∧
  job_function_value (env_dicts c.2) (Examples.command_job "A")
  = job_function_value Examples.path_store (Examples.command_job "A").
Proof.
  intros c.
  apply (execute_without_userspace_keeps_dicts Examples.no_latest_events
           (Examples.command_job "A")
           (Some (mkJobRunOverrides None None (Some {[ "k" := "v" ]}) None))
           [Examples.eager_runner 0] 1 "u1" 0
           (mkWorld Examples.waiting_log Examples.path_store) c.1 c.2).
  - reflexivity.
  - vm_compute. reflexivity.
Defined.

Lemma execute_bad_job_function_witness :
  Run.execute Examples.no_latest_events
    (mkJob (Examples.topic "A") JFOther [] None ∅ None) None
    [Examples.eager_runner 0] 1 "u1" 0 (mkWorld Examples.waiting_log ∅)
  = (Raise (ValueError BadJobFunction), mkWorld Examples.waiting_log ∅).
Proof.
  apply (execute_bad_job_function Examples.no_latest_events
           (mkJob (Examples.topic "A") JFOther [] None ∅ None) None
           [Examples.eager_runner 0] 1 "u1" 0
           (mkWorld Examples.waiting_log ∅)).
  - reflexivity.
  - vm_compute. eexists. split; [reflexivity|]. split; discriminate.
Defined.

(** ** More on the state predicate *)

Section all_job_state_predicate_more.
Variable CURRENT_JOB : TopicName.
Context {Sub : Type}.
Implicit Types (self : AllJobStatePredicate.t)
  (event_log : EventLog TopicName Sub).

Lemma substitute_twice current job_name :
  AllJobStatePredicate.substitute CURRENT_JOB current
    (AllJobStatePredicate.substitute CURRENT_JOB current job_name)
  = AllJobStatePredicate.substitute CURRENT_JOB current job_name.
Proof.
  unfold AllJobStatePredicate.substitute.
  destruct (decide (job_name = CURRENT_JOB)) as [->|Hne].
  - by destruct (decide (current = CURRENT_JOB)).
  - by rewrite decide_False.
Qed.

Lemma apply_from_substituted self self' event_log high current names :
  AllJobStatePredicate.on_states self = AllJobStatePredicate.on_states self' →
  AllJobStatePredicate.apply_from CURRENT_JOB self event_log high current names
  = AllJobStatePredicate.apply_from CURRENT_JOB self' event_log high current
      (map (AllJobStatePredicate.substitute CURRENT_JOB current) names).
Proof.
  intros Hst. induction names as [|n names IH]; [done|].
  simpl. rewrite substitute_twice.
  destruct (last_event event_log _ high) as [e|]; [|done].
  destruct (payload_state (payload e)) as [st|]; [|done].
  by rewrite IH, Hst.
Qed.

(** X9. Naming [CURRENT_JOB] in a predicate is the same as naming the
    current job: the predicate gives the same result, error included, when
    its job names are replaced beforehand by what they stand for. *)
Theorem apply_current_job_substituted self event_log low high current :
  AllJobStatePredicate.apply CURRENT_JOB self event_log low high current
  = AllJobStatePredicate.apply CURRENT_JOB
      (AllJobStatePredicate.mk
         (map (AllJobStatePredicate.substitute CURRENT_JOB current)
              (AllJobStatePredicate.job_names self))
         (AllJobStatePredicate.on_states self))
      event_log low high current.
Proof.
  unfold AllJobStatePredicate.apply. simpl. by apply apply_from_substituted.
Qed.

(** X10. A predicate that holds still holds when job names are dropped
    from it and when states are added to it. *)
Theorem apply_monotone self self' event_log low high current :
  AllJobStatePredicate.job_names self'
    ⊆ AllJobStatePredicate.job_names self →
  AllJobStatePredicate.on_states self
    ⊆ AllJobStatePredicate.on_states self' →
  AllJobStatePredicate.apply CURRENT_JOB self event_log low high current
    = Ok true →
  AllJobStatePredicate.apply CURRENT_JOB self' event_log low high current
    = Ok true.
Proof.
  unfold AllJobStatePredicate.apply. rewrite !apply_from_true.
  intros Hnames Hstates H jn Hjn.
  destruct (H jn (Hnames _ Hjn)) as (e & p & He & Hp & Hst).
  exists e, p. split; [done|]. split; [done|]. by apply Hstates.
Qed.
End all_job_state_predicate_more.

Lemma apply_monotone_witness :
  AllJobStatePredicate.apply ∅
    (AllJobStatePredicate.mk [Examples.topic "A"] [WAITING; SUCCEEDED])
    Examples.waiting_log 0 1 (Examples.topic "B")
  = Ok true.
Proof.
  apply (apply_monotone ∅
           (AllJobStatePredicate.mk [Examples.topic "A"; Examples.topic "A"]
              [WAITING])).
  - intros x Hx. apply list_elem_of_singleton in Hx as ->. left.
  - intros x Hx. apply list_elem_of_singleton in Hx as ->. left.
  - vm_compute. reflexivity.
Defined.

(** ** More on scope expansion *)

Lemma name_collides_union (sc : ScopeValues) (n : TopicName) :
  sc ≠ ∅ → name_collides sc (n ∪ sc).
Proof.
  intros Hne. destruct (map_choose sc Hne) as (k & v & Hk).
  exists k. split; [by exists v|].
  destruct (n !! k) as [v'|] eqn:Hn.
  - exists v'. by apply lookup_union_Some_l.
  - exists v. rewrite lookup_union_r; done.
Qed.

Lemma name_collides_union_l (sc : ScopeValues) (n : TopicName) :
  name_collides sc n → name_collides sc (n ∪ sc).
Proof.
  intros (k & Hsc & [v Hn]). exists k. split; [done|].
  exists v. by apply lookup_union_Some_l.
Qed.

(** What the loop has checked and done when it returns. *)
Lemma adjust_jobs_Ok sc jobs h h' :
  adjust_jobs sc jobs h = (Ok tt, h') →
  (∀ l, l ∈ jobs → ¬ name_collides sc (name (h !!! l))) ∧
  (∀ l, l ∈ jobs → expanded_job sc (h !!! l) (h' !!! l)) ∧
  (∀ l, l ∉ jobs → h' !!! l = h !!! l) ∧
  (sc ≠ ∅ → NoDup jobs).
Proof.
  revert h. induction jobs as [|l0 jobs IH]; intros h; simpl.
  - intros [= <-]. split; [|split; [|split]].
    + intros l Hl. by apply not_elem_of_nil in Hl.
    + intros l Hl. by apply not_elem_of_nil in Hl.
    + done.
    + intros _. constructor.
  - unfold bind.
    destruct (adjust_job_cases sc l0 h) as [[_ ->]|(Hc0 & j' & Hexp & ->)];
      [done|].
    intros H. destruct (IH _ H) as (Hfresh & Hdone & Hout & Hnd).
    assert (∀ l, ¬ name_collides sc (name (<[l0 := j']> h !!! l)) →
                 ¬ name_collides sc (name (h !!! l))) as Hback.
    { intros l Hl. destruct (decide (l0 = l)) as [->|Hne].
      - done.
      - by rewrite lookup_total_insert_ne in Hl. }
    assert (∀ l, expanded_job sc (<[l0 := j']> h !!! l) (h' !!! l) →
                 expanded_job sc (h !!! l) (h' !!! l)) as Hexp_back.
    { intros l Hl. destruct (decide (l0 = l)) as [->|Hne].
      - rewrite lookup_total_insert_eq in Hl.
        by apply (expanded_job_twice sc _ j').
      - by rewrite lookup_total_insert_ne in Hl. }
    split; [|split; [|split]].
    + intros l [->|Hl]%elem_of_cons; [done|]. by apply Hback, Hfresh.
    + intros l Hl. destruct (decide (l ∈ jobs)) as [Hin|Hnin].
      * by apply Hexp_back, Hdone.
      * apply elem_of_cons in Hl as [->|Hl]; [|done].
        rewrite (Hout _ Hnin), lookup_total_insert_eq. exact Hexp.
    + intros l Hl. apply not_elem_of_cons in Hl as [Hne Hl].
      rewrite (Hout _ Hl). by apply lookup_total_insert_ne.
    + intros Hne. apply NoDup_cons. split; [|by apply Hnd].
      intros Hin. apply (Hfresh _ Hin).
      rewrite lookup_total_insert_eq. destruct Hexp as (-> & _).
      by apply name_collides_union.
Qed.

Lemma wrapper_Ok func events h jobs h' :
  add_scope_jobs_decorator func events h = (Ok jobs, h') →
  ∃ sc h1,
    scope_payloads (map_to_list events).*2 = Ok [sc] ∧
    func sc h = (Ok jobs, h1) ∧
    adjust_jobs sc jobs h1 = (Ok tt, h').
Proof.
  unfold add_scope_jobs_decorator, bind at 1, lift.
  destruct (scope_payloads _) as [[|sc [|sc' rest]]|e]; try done.
  unfold bind at 1. destruct (func sc h) as [[jobs0|e] h1] eqn:Hf; [|done].
  unfold bind at 1.
  destruct (adjust_jobs sc jobs0 h1) as [[[]|e] h2] eqn:Ha; [|done].
  intros [= <- <-]. by exists sc, h1.
Qed.

(** X11. When the wrapper returns, it was handed exactly one scope, it
    returns the jobs the wrapped function returned, every one of them is
    expanded in place (name extended with the scope entries, scope set, the
    other fields as they were) and had no key of the scope in its name, and
    no other job of the store is touched. *)
Theorem add_scope_jobs_success
    (func : ScopeValues → M job_store (list loc))
    (events : gmap TopicName (option (Event TopicName)))
    (jobs_to_add : list loc) (h h' : job_store) :
  add_scope_jobs_decorator func events h = (Ok jobs_to_add, h') →
  ∃ sc h1,
    scope_payloads (map_to_list events).*2 = Ok [sc] ∧
    func sc h = (Ok jobs_to_add, h1) ∧
    (∀ l, l ∈ jobs_to_add →
          ¬ name_collides sc (name (h1 !!! l)) ∧
          expanded_job sc (h1 !!! l) (h' !!! l)) ∧
    (∀ l, l ∉ jobs_to_add → h' !!! l = h1 !!! l).
Proof.
  intros (sc & h1 & Hsc & Hf & Ha)%wrapper_Ok.
  destruct (adjust_jobs_Ok _ _ _ _ Ha) as (Hfresh & Hdone & Hout & _).
  exists sc, h1. split; [done|]. split; [done|]. split; [|done].
  intros l Hl. split; [by apply Hfresh|by apply Hdone].
Qed.

Lemma add_scope_jobs_success_witness :
  ∃ sc h1,
    scope_payloads (map_to_list Examples.delivered).*2 = Ok [sc] ∧
    ScopeExamples.make_two_jobs sc ∅ = (Ok [0%nat; 1%nat], h1) ∧
    (∀ l, l ∈ [0%nat; 1%nat] →
          ¬ name_collides sc (name (h1 !!! l)) ∧
          expanded_job sc (h1 !!! l)
            ((add_scope_jobs_decorator ScopeExamples.make_two_jobs
                Examples.delivered ∅).2 !!! l)) ∧
    (∀ l, l ∉ [0%nat; 1%nat] →
          (add_scope_jobs_decorator ScopeExamples.make_two_jobs
             Examples.delivered ∅).2 !!! l = h1 !!! l).
Proof.
  apply (add_scope_jobs_success ScopeExamples.make_two_jobs
           Examples.delivered [0%nat; 1%nat] ∅).
  vm_compute. reflexivity.
Defined.

(** X12. A wrapped function that returns the same job object twice gets
    [ScopeKeyCollision] whenever the scope is not empty: the second visit
    finds the scope keys the first visit put into the name. *)
Theorem add_scope_jobs_same_job_twice
    (func : ScopeValues → M job_store (list loc))
    (events : gmap TopicName (option (Event TopicName)))
    (sc : ScopeValues) (jobs_to_add : list loc) (h h1 : job_store) :
  scope_payloads (map_to_list events).*2 = Ok [sc] →
  func sc h = (Ok jobs_to_add, h1) →
  sc ≠ ∅ →
  ¬ NoDup jobs_to_add →
  ∃ h', add_scope_jobs_decorator func events h
        = (Raise (ValueError ScopeKeyCollision), h').
Proof.
  intros Hsc Hf Hne Hdup.
  unfold add_scope_jobs_decorator, bind at 1, lift. rewrite Hsc.
  unfold bind at 1. rewrite Hf. unfold bind at 1.
  destruct (adjust_jobs sc jobs_to_add h1) as [[[]|e] h2] eqn:Ha.
  - destruct (adjust_jobs_Ok _ _ _ _ Ha) as (_ & _ & _ & Hnd).
    by destruct (Hdup (Hnd Hne)).
  - destruct (adjust_jobs_progress _ _ _ _ _ Ha) as (n & _ & -> & _).
    by exists h2.
Qed.

Lemma add_scope_jobs_same_job_twice_witness :
  ∃ h', add_scope_jobs_decorator ScopeExamples.make_same_job_twice
          Examples.delivered ∅
        = (Raise (ValueError ScopeKeyCollision), h').
Proof.
  apply (add_scope_jobs_same_job_twice ScopeExamples.make_same_job_twice
           Examples.delivered Examples.date_scope [0%nat; 0%nat] ∅
           (<[0%nat := Examples.local_job "j1"]> ∅)).
  - vm_compute. reflexivity.
  - reflexivity.
  - intros H. apply (f_equal (λ m, m !! "date")) in H. vm_compute in H.
    discriminate H.
  - intros H. apply NoDup_cons in H as [H _]. apply H. left.
Defined.

(** X13. Expansion keeps job names apart and only adds to them: when the
    wrapper returns, two of the returned jobs whose names differed before
    have names that differ after, and every returned job's new name contains
    its old entries and the entries of the scope. *)
Theorem add_scope_jobs_names
    (func : ScopeValues → M job_store (list loc))
    (events : gmap TopicName (option (Event TopicName)))
    (sc : ScopeValues) (jobs_to_add : list loc) (h h1 h' : job_store) :
  scope_payloads (map_to_list events).*2 = Ok [sc] →
  func sc h = (Ok jobs_to_add, h1) →
  add_scope_jobs_decorator func events h = (Ok jobs_to_add, h') →
  (∀ l, l ∈ jobs_to_add →
        name (h1 !!! l) ⊆ name (h' !!! l) ∧ sc ⊆ name (h' !!! l)) ∧
  (∀ l1 l2, l1 ∈ jobs_to_add → l2 ∈ jobs_to_add →
            name (h1 !!! l1) ≠ name (h1 !!! l2) →
            name (h' !!! l1) ≠ name (h' !!! l2)).
Proof.
  intros Hsc Hf (sc' & h1' & Hsc' & Hf' & Ha)%wrapper_Ok.
  rewrite Hsc in Hsc'. injection Hsc' as <-.
  rewrite Hf in Hf'. injection Hf' as <-.
  destruct (adjust_jobs_Ok _ _ _ _ Ha) as (Hfresh & Hdone & _ & _).
  assert (∀ l, l ∈ jobs_to_add → name (h1 !!! l) ##ₘ sc) as Hdisj.
  { intros l Hl. apply map_disjoint_spec. intros k v v' Hn Hs.
    apply (Hfresh l Hl). exists k. split; by eexists. }
  split.
  - intros l Hl. destruct (Hdone l Hl) as (-> & _). split.
    + apply map_union_subseteq_l.
    + apply map_union_subseteq_r. by apply Hdisj.
  - intros l1 l2 Hl1 Hl2 Hne Heq. apply Hne.
    destruct (Hdone l1 Hl1) as (Hn1 & _). destruct (Hdone l2 Hl2) as (Hn2 & _).
    rewrite Hn1, Hn2 in Heq.
    apply map_eq. intros k.
    apply (f_equal (λ m, m !! k)) in Heq.
    destruct (sc !! k) as [v|] eqn:Hk.
    + pose proof (Hdisj l1 Hl1) as H1. pose proof (Hdisj l2 Hl2) as H2.
      rewrite map_disjoint_spec in H1, H2.
      destruct (name (h1 !!! l1) !! k) as [v1|] eqn:E1;
        [by destruct (H1 k v1 v E1 Hk)|].
      destruct (name (h1 !!! l2) !! k) as [v2|] eqn:E2;
        [by destruct (H2 k v2 v E2 Hk)|]. done.
    + by rewrite !lookup_union_l in Heq.
Qed.

Lemma add_scope_jobs_names_witness :
  let h' := (add_scope_jobs_decorator ScopeExamples.make_two_jobs
               Examples.delivered ∅).2 in
  let h1 := (ScopeExamples.make_two_jobs Examples.date_scope ∅).2 in
  (∀ l, l ∈ [0%nat; 1%nat] →
        name (h1 !!! l) ⊆ name (h' !!! l) ∧
        Examples.date_scope ⊆ name (h' !!! l)) ∧
  (∀ l1 l2, l1 ∈ [0%nat; 1%nat] → l2 ∈ [0%nat; 1%nat] →
            name (h1 !!! l1) ≠ name (h1 !!! l2) →
            name (h' !!! l1) ≠ name (h' !!! l2)).
Proof.
  apply (add_scope_jobs_names ScopeExamples.make_two_jobs Examples.delivered
           Examples.date_scope [0%nat; 1%nat] ∅).
  - vm_compute. reflexivity.
  - reflexivity.
  - vm_compute. reflexivity.
Defined.

(** X14. Handed events that are all present and of which none, or more
    than one, carries a [ScopeValues], the wrapper raises
    [ScopeArityMismatch]; the wrapped function is not called and no job is
    touched. *)
Theorem add_scope_jobs_arity_mismatch
    (func : ScopeValues → M job_store (list loc))
    (events : gmap TopicName (option (Event TopicName)))
    (present : list (Event TopicName)) (h : job_store) :
  (map_to_list events).*2 = Some <$> present →
  length (scope_values_of present) ≠ 1%nat →
  add_scope_jobs_decorator func events h
  = (Raise (ValueError ScopeArityMismatch), h).
Proof.
  intros Hpresent Hlen.
  rewrite (add_scope_jobs_all_present func events present h Hpresent).
  by destruct (scope_values_of present) as [|sc [|sc' rest]].
Qed.

Lemma add_scope_jobs_arity_mismatch_witness :
  add_scope_jobs_decorator ScopeExamples.make_two_jobs
    ScopeExamples.delivered_no_scope ∅
  = (Raise (ValueError ScopeArityMismatch), ∅).
Proof.
  apply (add_scope_jobs_arity_mismatch ScopeExamples.make_two_jobs
           ScopeExamples.delivered_no_scope
           [Examples.job_event "A" 1 None WAITING] ∅).
  - vm_compute. reflexivity.
  - vm_compute. discriminate.
Defined.

(** ** More on the scheduler *)

Section scheduler_more.
Context {Trigger Action : Type}.
Variable topic_names_to_subscribe : Trigger → list string.
Variable Actions_run : Action.
Variable all_subscribers_called :
  EventLog string Scheduler.Subscriber → bool.
Implicit Types (self : Scheduler.t Trigger Action)
  (job : Scheduler.Job Trigger Action).

Local Abbreviation create_job_subscriptions :=
  (Scheduler.create_job_subscriptions topic_names_to_subscribe).
Local Abbreviation load := (load topic_names_to_subscribe).

Lemma add_job_Ok job self self' :
  Scheduler.add_job job self = (Ok tt, self') →
  Scheduler._jobs self !! Scheduler.name job = None ∧
  Scheduler._jobs self'
  = <[Scheduler.name job := job]> (Scheduler._jobs self) ∧
  log_events (Scheduler._event_log self')
  = log_events (Scheduler._event_log self)
      ++ [mkEvent (Scheduler.name job)
            (curr_timestamp (Scheduler._event_log self) + 1)
            (PJob (JobPayload2 None WAITING))].
Proof.
  unfold Scheduler.add_job. case_bool_decide as Hdup; [done|].
  intros [= <-]. split; [|done]. by apply eq_None_not_Some.
Qed.

(** X15. A job that was added is in the registry under its name, and
    every later [add_job] of a job with that name is rejected with
    [DuplicateJobName], leaving the scheduler as it is: the first job
    stays. *)
Theorem add_job_twice_rejected job self self' :
  Scheduler.add_job job self = (Ok tt, self') →
  Scheduler._jobs self' !! Scheduler.name job = Some job ∧
  ∀ job', Scheduler.name job' = Scheduler.name job →
          Scheduler.add_job job' self'
          = (Raise (ValueError DuplicateJobName), self').
Proof.
  intros (_ & Hjobs & _)%add_job_Ok.
  assert (Scheduler._jobs self' !! Scheduler.name job = Some job) as Hin
    by (rewrite Hjobs; apply lookup_insert_eq).
  split; [done|]. intros job' Hname. unfold Scheduler.add_job.
  rewrite bool_decide_eq_true_2; [done|]. rewrite Hname, Hin. by eexists.
Qed.

(** X16. Right after [add_job] the job's latest event at the log's current
    timestamp is the [WAITING] event without request id that [add_job]
    appended, so the job is not among the running and requested ones. *)
Theorem add_job_starts_waiting job self self' :
  Scheduler.add_job job self = (Ok tt, self') →
  let log' := Scheduler._event_log self' in
  curr_timestamp log' = curr_timestamp (Scheduler._event_log self) + 1 ∧
  last_event log' (Scheduler.name job) (curr_timestamp log')
  = Some (mkEvent (Scheduler.name job) (curr_timestamp log')
            (PJob (JobPayload2 None WAITING))) ∧
  SchedulerRuntime.yielded self' (curr_timestamp log') (Scheduler.name job)
  = Ok None.
Proof.
  intros (_ & _ & Hev)%add_job_Ok log'.
  assert (curr_timestamp log'
          = curr_timestamp (Scheduler._event_log self) + 1) as Hcurr.
  { unfold curr_timestamp at 1. subst log'. by rewrite Hev, last_snoc. }
  assert (last_event log' (Scheduler.name job) (curr_timestamp log')
          = Some (mkEvent (Scheduler.name job) (curr_timestamp log')
                    (PJob (JobPayload2 None WAITING)))) as Hlast.
  { unfold last_event. subst log'. rewrite Hev, filter_app, filter_cons_True.
    - by rewrite filter_nil, last_snoc, <- Hcurr.
    - split; simpl; [done|]. rewrite Hcurr. lia. }
  split; [done|]. split; [done|].
  unfold SchedulerRuntime.yielded. fold log'. by rewrite Hlast.
Qed.

Lemma create_job_subscriptions_effect self :
  let after := create_job_subscriptions self in
  log_events (Scheduler._event_log after)
  = log_events (Scheduler._event_log self) ∧
  Scheduler._jobs after = Scheduler._jobs self ∧
  Scheduler._create_job_subscriptions_queue after = [] ∧
  log_subscribers (Scheduler._event_log after)
  = log_subscribers (Scheduler._event_log self)
      ++ map (λ b, (topic_names_to_subscribe b.1.2,
                    Scheduler.mkSubscriber (length (Scheduler.frames self))))
             (Scheduler.pending_bindings self).
Proof.
  intros after.
  destruct (bind_jobs_spec topic_names_to_subscribe
              (length (Scheduler.frames self))
              (Scheduler._create_job_subscriptions_queue self)
              (Scheduler.mk (Scheduler._event_log self)
                 (Scheduler._jobs self)
                 (Scheduler._create_job_subscriptions_queue self)
                 (Scheduler.frames self
                    ++ [Scheduler.mkFrame None None None])))
    as (_ & Hs & He & Hj).
  subst after. unfold Scheduler.create_job_subscriptions. simpl in *.
  by rewrite Hs, He, Hj.
Qed.

(** X17. [create_job_subscriptions] drains the queue and subscribes one
    subscriber per pending binding, in the order of the queue and of each
    job's trigger-actions, each on the topics of its own binding's trigger;
    it appends no event and changes no registered job. *)
Theorem create_job_subscriptions_subscribes self :
  let after := create_job_subscriptions self in
  log_events (Scheduler._event_log after)
  = log_events (Scheduler._event_log self) ∧
  Scheduler._jobs after = Scheduler._jobs self ∧
  Scheduler._create_job_subscriptions_queue after = [] ∧
  map fst (Scheduler.new_subscriptions self after)
  = map (λ b, topic_names_to_subscribe b.1.2)
        (Scheduler.pending_bindings self) ∧
  length (log_subscribers (Scheduler._event_log after))
  = (length (log_subscribers (Scheduler._event_log self))
     + length (Scheduler.pending_bindings self))%nat.
Proof.
  intros after.
  destruct (create_job_subscriptions_effect self) as (He & Hj & Hq & Hs).
  fold after in He, Hj, Hq, Hs.
  split; [done|]. split; [done|]. split; [done|].
  unfold Scheduler.new_subscriptions. rewrite Hs. split.
  - by rewrite drop_app_length, map_map.
  - by rewrite length_app, length_map.
Qed.

(** X18. Once the queue is drained a further [create_job_subscriptions]
    subscribes nothing: called twice in a row, it leaves the subscribers,
    the events and the registry as the first call left them. *)
Theorem create_job_subscriptions_twice self :
  let once := create_job_subscriptions self in
  let twice := create_job_subscriptions once in
  log_subscribers (Scheduler._event_log twice)
  = log_subscribers (Scheduler._event_log once) ∧
  log_events (Scheduler._event_log twice)
  = log_events (Scheduler._event_log once) ∧
  Scheduler._jobs twice = Scheduler._jobs once ∧
  Scheduler._create_job_subscriptions_queue twice = [].
Proof.
  intros once twice.
  destruct (create_job_subscriptions_effect self) as (_ & _ & Hq & _).
  destruct (create_job_subscriptions_effect once) as (He & Hj & Hq' & Hs).
  fold once in Hq. fold twice in He, Hj, Hq', Hs.
  unfold Scheduler.pending_bindings in Hs. rewrite Hq in Hs. simpl in Hs.
  rewrite app_nil_r in Hs. done.
Qed.

Lemma elem_of_job_names self (name : string) :
  name ∈ SchedulerRuntime.job_names self
  ↔ is_Some (Scheduler._jobs self !! name).
Proof.
  unfold SchedulerRuntime.job_names. rewrite list_elem_of_fmap. split.
  - intros ([n j] & -> & Hin). apply elem_of_map_to_list in Hin. by exists j.
  - intros [j Hj]. exists (name, j). split; [done|].
    by apply elem_of_map_to_list.
Qed.

Lemma yielded_None self t (name : string) :
  SchedulerRuntime.yielded self t name = Ok None
  ↔ not_in_flight (Scheduler._event_log self) name t.
Proof.
  unfold SchedulerRuntime.yielded, not_in_flight.
  destruct (last_event _ name t) as [ev|]; [|done].
  destruct (payload ev) as [p| |]; simpl.
  - case_bool_decide as Hst; split.
    + done.
    + intros (p' & [= <-] & Hrr & Hrun).
      apply elem_of_cons in Hst as [Hst|Hst]; [done|].
      by apply list_elem_of_singleton in Hst.
    + intros _. exists p. split; [done|].
      split; intros Heq; apply Hst; rewrite Heq, !elem_of_cons; auto.
    + done.
  - split; [done|]. by intros (p & [=] & _).
  - split; [done|]. by intros (p & [=] & _).
Qed.

Lemma yielded_Some self t (name : string) ev :
  SchedulerRuntime.yielded self t name = Ok (Some ev)
  ↔ last_event (Scheduler._event_log self) name t = Some ev ∧ in_flight ev.
Proof.
  unfold SchedulerRuntime.yielded, in_flight.
  destruct (last_event _ name t) as [ev'|].
  2: { split; [done|]. by intros [[=] _]. }
  destruct (payload ev') as [p| |] eqn:Hp; simpl.
  - case_bool_decide as Hst; split.
    + intros [= <-]. split; [done|]. exists p. split; [done|].
      apply elem_of_cons in Hst as [Hst|Hst]; [by left|].
      apply list_elem_of_singleton in Hst. by right.
    + by intros [[= <-] _].
    + done.
    + intros [[= <-] (p' & Hp' & Hst')]. rewrite Hp in Hp'.
      injection Hp' as <-. destruct Hst. rewrite !elem_of_cons.
      destruct Hst' as [->| ->]; auto.
  - split; [done|]. intros [[= <-] (p' & Hp' & _)]. by rewrite Hp in Hp'.
  - split; [done|]. intros [[= <-] (p' & Hp' & _)]. by rewrite Hp in Hp'.
Qed.

Lemma any_yielded_false self t (names : list string) :
  SchedulerRuntime.any_yielded self t names = Ok false
  ↔ ∀ name, name ∈ names → SchedulerRuntime.yielded self t name = Ok None.
Proof.
  induction names as [|n names IH]; simpl.
  - split; [|done]. intros _ name H. by apply not_elem_of_nil in H.
  - destruct (SchedulerRuntime.yielded self t n) as [[ev|]|e] eqn:Hy.
    + split; [done|]. intros H. specialize (H n). rewrite Hy in H.
      by discriminate H; left.
    + rewrite IH. split.
      * intros H name [->|Hin]%elem_of_cons; [done|by apply H].
      * intros H name Hin. apply H. by right.
    + split; [done|]. intros H. specialize (H n). rewrite Hy in H.
      by discriminate H; left.
Qed.


Lemma yield_all_spec self t (names : list string) evs :
  SchedulerRuntime.yield_all self t names = Ok evs →
  (∀ ev, ev ∈ evs ↔
         ∃ name, name ∈ names ∧
                 SchedulerRuntime.yielded self t name = Ok (Some ev)) ∧
  (length evs ≤ length names)%nat ∧
  SchedulerRuntime.any_yielded self t names
  = Ok (negb (bool_decide (evs = []))).
Proof.
  revert evs. induction names as [|n names IH]; intros evs; simpl.
  - intros [= <-]. split; [|done]. intros ev. split.
    + intros H. by apply not_elem_of_nil in H.
    + intros (name & H & _). by apply not_elem_of_nil in H.
  - destruct (SchedulerRuntime.yielded self t n) as [o|e] eqn:Hy; [|done].
    destruct (SchedulerRuntime.yield_all self t names) as [evs0|e]; [|done].
    intros [= <-]. destruct (IH evs0 eq_refl) as (Hmem & Hlen & Hany).
    split; [|split].
    + intros ev. rewrite elem_of_app, Hmem. split.
      * intros [Ho | (name & Hin & Hn)].
        -- destruct o as [ev0|]; simpl in Ho.
           ++ apply list_elem_of_singleton in Ho as ->. exists n.
              split; [left|done].
           ++ by apply not_elem_of_nil in Ho.
        -- exists name. split; [by right|done].
      * intros (name & [->|Hin]%elem_of_cons & Hn).
        -- left. rewrite Hy in Hn. injection Hn as ->. simpl. left.
        -- right. by exists name.
    + rewrite length_app. destruct o; simpl; lia.
    + destruct o as [ev0|]; simpl; [done|]. exact Hany.
Qed.


(** The invariant of a scheduler that has only been loaded. *)
Lemma load_invariant (requests : list (loader_request Trigger Action)) :
  let self := load requests SchedulerRuntime.init in
  (∀ e, e ∈ log_events (Scheduler._event_log self) →
        payload e = PJob (JobPayload2 None WAITING) ∧
        is_Some (Scheduler._jobs self !! topic_name e)) ∧
  length (log_events (Scheduler._event_log self))
  = size (Scheduler._jobs self).
Proof.
  induction requests as [|request requests IH] using rev_ind.
  - simpl. split; [|by rewrite map_size_empty].
    intros e H. by apply not_elem_of_nil in H.
  - unfold load. rewrite foldl_snoc.
    fold (load requests (@SchedulerRuntime.init Trigger Action)).
    set (self := load requests SchedulerRuntime.init) in *.
    destruct IH as [Hev Hlen]. destruct request as [job|].
    + destruct (Scheduler.add_job job self) as [[[]|e] self'] eqn:Hadd.
      * apply add_job_Ok in Hadd as (Hfresh & Hjobs & Hevents). simpl.
        rewrite Hjobs, Hevents. split.
        -- intros e [He|He]%elem_of_app.
           ++ destruct (Hev e He) as [Hp Hreg]. split; [done|].
              apply lookup_insert_is_Some. destruct Hreg as [j Hj].
              destruct (decide (Scheduler.name job = topic_name e)); [by left|].
              right. split; [done|]. by exists j.
           ++ apply list_elem_of_singleton in He as ->. split; [done|].
              simpl. rewrite lookup_insert_eq. by eexists.
        -- rewrite length_app, map_size_insert_None by done. simpl. lia.
      * revert Hadd. unfold Scheduler.add_job. case_bool_decide; [|done].
        intros [= _ <-]. simpl. done.
    + destruct (create_job_subscriptions_effect self) as (He & Hj & _).
      cbv beta iota zeta. by rewrite He, Hj.
Qed.


(** X22. [manual_run] finds exactly the jobs [add_job] registered. For a
    job that was just added it hands the event loop one call of
    [_run_action] on that job with the run action and appends no event
    itself; for a name that is not registered it raises the unknown-job error
    and hands over nothing. *)
Theorem manual_run_after_add_job job self self' :
  Scheduler.add_job job self = (Ok tt, self') →
  (∀ pending,
     SchedulerRuntime.manual_run Actions_run (Scheduler.name job)
       (SchedulerRuntime.mkEventLoop self' pending)
     = (inr tt,
        SchedulerRuntime.mkEventLoop self' (pending ++ [(job, Actions_run)]))) ∧
  (∀ (name : string) pending,
     name ≠ Scheduler.name job →
     Scheduler._jobs self !! name = None →
     SchedulerRuntime.manual_run Actions_run name
       (SchedulerRuntime.mkEventLoop self' pending)
     = (inl SchedulerRuntime.UnknownJob,
        SchedulerRuntime.mkEventLoop self' pending)).
Proof.
  intros (_ & Hjobs & _)%add_job_Ok. split.
  - intros pending. unfold SchedulerRuntime.manual_run. simpl.
    by rewrite Hjobs, lookup_insert_eq.
  - intros name pending Hne Hnone. unfold SchedulerRuntime.manual_run. simpl.
    by rewrite Hjobs, lookup_insert_ne, Hnone.
Qed.
End scheduler_more.

Lemma add_job_twice_rejected_witness :
  Scheduler._jobs SchedulerExamples.loaded !! "B2"
  = Some SchedulerExamples.job_B2 ∧
  ∀ job', Scheduler.name job' = "B2" →
          Scheduler.add_job job' SchedulerExamples.loaded
          = (Raise (ValueError DuplicateJobName), SchedulerExamples.loaded).
Proof.
  apply (add_job_twice_rejected SchedulerExamples.job_B2
           (Scheduler.add_job SchedulerExamples.job_B1
              SchedulerExamples.empty).2 SchedulerExamples.loaded).
  vm_compute. reflexivity.
Defined.

Lemma add_job_starts_waiting_witness :
  curr_timestamp (Scheduler._event_log SchedulerExamples.loaded) = 1 + 1 ∧
  last_event (Scheduler._event_log SchedulerExamples.loaded) "B2"
    (curr_timestamp (Scheduler._event_log SchedulerExamples.loaded))
  = Some (mkEvent "B2"
            (curr_timestamp (Scheduler._event_log SchedulerExamples.loaded))
            (PJob (JobPayload2 None WAITING))) ∧
  SchedulerRuntime.yielded SchedulerExamples.loaded
    (curr_timestamp (Scheduler._event_log SchedulerExamples.loaded)) "B2"
  = Ok None.
Proof.
  apply (add_job_starts_waiting SchedulerExamples.job_B2
           (Scheduler.add_job SchedulerExamples.job_B1
              SchedulerExamples.empty).2 SchedulerExamples.loaded).
  vm_compute. reflexivity.
Defined.


Lemma manual_run_after_add_job_witness :
  (∀ pending,
     SchedulerRuntime.manual_run "run" "B2"
       (SchedulerRuntime.mkEventLoop SchedulerExamples.loaded pending)
     = (inr tt,
        SchedulerRuntime.mkEventLoop SchedulerExamples.loaded
          (pending ++ [(SchedulerExamples.job_B2, "run")]))) ∧
  (∀ (name : string) pending,
     name ≠ "B2" →
     Scheduler._jobs (Scheduler.add_job SchedulerExamples.job_B1
                        SchedulerExamples.empty).2 !! name = None →
     SchedulerRuntime.manual_run "run" name
       (SchedulerRuntime.mkEventLoop SchedulerExamples.loaded pending)
     = (inl SchedulerRuntime.UnknownJob,
        SchedulerRuntime.mkEventLoop SchedulerExamples.loaded pending)).
Proof.
  apply (manual_run_after_add_job "run" SchedulerExamples.job_B2
           (Scheduler.add_job SchedulerExamples.job_B1
              SchedulerExamples.empty).2 SchedulerExamples.loaded).
  vm_compute. reflexivity.
Defined.

(** ** When [Run.execute] does start a run *)

(** X23. When no run of the job is in flight, the job's function resolves,
    the overrides apply to it and some available runner is compatible,
    [Run.execute] does call [run]: of a compatible runner, with the job's
    name, the drawn request id and the function after overrides and
    latest-event substitution, on the log as it was. It returns the drawn id
    if [run] returns and raises if [run] raises; the world it leaves behind
    has the log [run] produced and the dicts override application
    produced. *)
Theorem execute_starts_run
    (replace_latest_events :
       JobRunnerFunction → Job → EventLog TopicName unit → Z → JobRunnerFunction)
    job run_overrides runners t uuid4 rnd w f0 f1 σ1 :
  not_in_flight (event_log w) (name job) t →
  resolved job = Some f0 →
  _apply_job_run_overrides run_overrides f0 (env_dicts w) = (Ok f1, σ1) →
  let f2 := replace_latest_events f1 job (event_log w) t in
  compatible_job_runners job f2 runners ≠ [] →
  ∃ runner returned log',
    runner ∈ compatible_job_runners job f2 runners ∧
    run runner (name job) uuid4 f2 (event_log w) = (returned, log') ∧
    Run.execute replace_latest_events job run_overrides runners t uuid4 rnd w
    = (if returned then Ok (Some uuid4) else Raise RunnerError,
       mkWorld log' σ1).
Proof.
  intros Hnot Hres Happ f2 Hne.
  destruct (random_choice_in rnd _ Hne) as (runner & Hch & Hin).
  destruct (run runner (name job) uuid4 f2 (event_log w))
    as [returned log'] eqn:Hrun.
  exists runner, returned, log'. split; [done|]. split; [done|].
  assert (Run.start_run replace_latest_events job run_overrides runners t
            uuid4 rnd w
          = (if returned then Ok (Some uuid4) else Raise RunnerError,
             mkWorld log' σ1)) as Hstart.
  { unfold Run.start_run, bind, get, lift, ret, raise, on_env_dicts,
      on_event_log, await_run.
    assert (choose_job_runner job f2 runners rnd = Ok runner) as Hchoose.
    { unfold choose_job_runner. rewrite bool_decide_eq_false_2.
      - by rewrite Hch.
      - intros Hlen. by apply length_zero_iff_nil in Hlen. }
    unfold resolved in Hres.
    destruct (job_function job) as [f|v|]; [| |done];
      injection Hres as ->; simpl; rewrite Happ; simpl;
      fold f2; rewrite Hchoose; simpl; rewrite Hrun; by destruct returned. }
  unfold Run.execute, bind, get, lift. simpl.
  unfold not_in_flight in Hnot.
  destruct (last_event (event_log w) (name job) t) as [ev|]; [|done].
  destruct Hnot as (p & Hp & Hrr & Hrunning). rewrite Hp. simpl.
  rewrite bool_decide_eq_false_2; [done|].
  rewrite !elem_of_cons, elem_of_nil. tauto.
Qed.

Lemma execute_starts_run_witness :
  ∃ runner returned log',
    runner ∈ compatible_job_runners (Examples.local_job "A")
               (JRLocal (mkLocalFunction "f" [] ∅))
               [Examples.local_runner 0] ∧
    run runner (Examples.topic "A") "u1" (JRLocal (mkLocalFunction "f" [] ∅))
      Examples.waiting_log = (returned, log') ∧
    Run.execute Examples.no_latest_events (Examples.local_job "A") None
      [Examples.local_runner 0] 1 "u1" 0 (mkWorld Examples.waiting_log ∅)
    = (if returned then Ok (Some "u1") else Raise RunnerError,
       mkWorld log' ∅).
Proof.
  apply (execute_starts_run Examples.no_latest_events (Examples.local_job "A")
           None [Examples.local_runner 0] 1 "u1" 0
           (mkWorld Examples.waiting_log ∅)
           (JRLocal (mkLocalFunction "f" [] ∅))
           (JRLocal (mkLocalFunction "f" [] ∅)) ∅).
  - vm_compute. eexists. split; [reflexivity|]. split; discriminate.
  - reflexivity.
  - reflexivity.
  - simpl. discriminate.
Defined.
